(** * django-site-map: the Snippet model, its views, routes and sitemaps

    A shallow embedding of [myapp/models.py], [myapp/views.py],
    [myapp/urls.py] and [myapp/sitemaps.py].  The application is glue over
    Django: the framework functions it calls ([slugify], [Model.save],
    [QuerySet.get], [get_object_or_404], [path], [reverse], [Sitemap]) are
    embedded next to the application code, each under the name Django gives
    it and with the Python it stands for quoted above it.

    Python text is a list of Unicode code points, fallible code returns
    [result], and the database table is threaded explicitly. *)

From Stdlib Require Import List NArith Bool Lia.
From Stdlib.Strings Require Import String Ascii Byte.
Import ListNotations.
Open Scope N_scope.

(* ================================================================== *)
(** ** Python values: [str], [bytes], exceptions                       *)
(* ================================================================== *)

(** A Python [str]: its code points, in order. *)
Definition str := list N.

(** A Python [bytes] object. *)
Definition bytes := list byte.

(** A literal of the source, written as a Rocq string of ASCII characters. *)
Definition lit (s : string) : str := map N_of_ascii (list_ascii_of_string s).

(** [==] on [str]. *)
Fixpoint str_eqb (a b : str) : bool :=
  match a, b with
  | [], [] => true
  | x :: a', y :: b' => (x =? y) && str_eqb a' b'
  | _, _ => false
  end.

(** The exceptions the modelled code can raise. *)
Inductive exn : Type :=
  | UnicodeEncodeError
  | UnicodeDecodeError
  | ValueError
  | DatabaseError
  | IntegrityError
  | DoesNotExist
  | MultipleObjectsReturned
  | Http404
  | Resolver404
  | NoReverseMatch
  | TypeError.

(** The outcome of a call: a value, or an exception that propagates. *)
Inductive result (A : Type) : Type :=
  | Ok (a : A)
  | Raise (e : exn).
Arguments Ok {A} a.
Arguments Raise {A} e.

Definition bind {A B : Type} (r : result A) (k : A -> result B) : result B :=
  match r with
  | Ok a => k a
  | Raise e => Raise e
  end.

Notation "x <- r ;; k" := (bind r (fun x => k))
  (at level 61, r at next level, right associativity).

(* ================================================================== *)
(** ** Character classes and the [str] methods used by [slugify]       *)
(* ================================================================== *)

Definition HYPHEN : N := 45.
Definition UNDERSCORE : N := 95.
Definition SLASH : N := 47.

Definition in_range (lo hi c : N) : bool := (lo <=? c) && (c <=? hi).

Definition is_ascii (c : N) : bool := c <? 128.
Definition is_upper (c : N) : bool := in_range 65 90 c.
Definition is_lower (c : N) : bool := in_range 97 122 c.
Definition is_digit (c : N) : bool := in_range 48 57 c.

(** [str.isspace] for one code point: the code points of bidirectional
    type WS, B or S, or of category Zs (CPython's
    [_PyUnicode_IsWhitespace]). *)
Definition isspace (c : N) : bool :=
  in_range 9 13 c || in_range 28 32 c
  || (c =? 133) || (c =? 160) || (c =? 5760)
  || in_range 8192 8202 c || (c =? 8232) || (c =? 8233)
  || (c =? 8239) || (c =? 8287) || (c =? 12288).

(** The regular-expression class [\s] of a [str] pattern: Unicode
    whitespace, the same test as [str.isspace]. *)
Definition re_s (c : N) : bool := isspace c.

(** The regular-expression class [\w] on ASCII text: [[a-zA-Z0-9_]].
    [slugify] matches it only against text it has just decoded from ASCII
    bytes, so the class is written out for that range. *)
Definition re_w (c : N) : bool :=
  is_upper c || is_lower c || is_digit c || (c =? UNDERSCORE).

(** [str.lower] on ASCII text ([A-Z] to [a-z]); applied, as [re_w] is, to
    text decoded from ASCII bytes only. *)
Definition lower_char (c : N) : N := if is_upper c then c + 32 else c.
Definition lower (s : str) : str := map lower_char s.

(** [re.sub('[CLASS]', repl, s)]: every character of the class is replaced. *)
Definition re_sub_class (cls : N -> bool) (repl : str) (s : str) : str :=
  flat_map (fun c => if cls c then repl else [c]) s.

(** [re.sub('[CLASS]+', repl, s)]: every maximal run of characters of the
    class is replaced by one [repl].  [in_run] says that the character
    before the current one belonged to a run already replaced. *)
Fixpoint sub_runs (cls : N -> bool) (repl : str) (in_run : bool) (s : str) : str :=
  match s with
  | [] => []
  | c :: s' =>
      if cls c
      then (if in_run then sub_runs cls repl true s'
            else repl ++ sub_runs cls repl true s')
      else c :: sub_runs cls repl false s'
  end.

Definition re_sub_class_plus (cls : N -> bool) (repl s : str) : str :=
  sub_runs cls repl false s.

Definition mem (c : N) (chars : str) : bool := existsb (N.eqb c) chars.

(** [str.lstrip(chars)], [str.rstrip(chars)] and [str.strip(chars)]. *)
Fixpoint lstrip (chars : str) (s : str) : str :=
  match s with
  | [] => []
  | c :: s' => if mem c chars then lstrip chars s' else s
  end.

Definition rstrip (chars : str) (s : str) : str := rev (lstrip chars (rev s)).

Definition strip (chars : str) (s : str) : str := rstrip chars (lstrip chars s).

(** The [errors] argument of [str.encode]. *)
Inductive errors : Type := strict | ignore.

(** [s.encode('ascii', errors)]: a code point below 128 becomes one byte;
    any other raises under [strict] and is dropped under [ignore]. *)
Fixpoint encode_ascii (e : errors) (s : str) : result bytes :=
  match s with
  | [] => Ok []
  | c :: s' =>
      match (if is_ascii c then Byte.of_N c else None) with
      | Some b => bs <- encode_ascii e s' ;; Ok (b :: bs)
      | None =>
          match e with
          | strict => Raise UnicodeEncodeError
          | ignore => encode_ascii e s'
          end
      end
  end.

(** [b.decode('ascii')]: raises on a byte that is not below 128. *)
Fixpoint decode_ascii (b : bytes) : result str :=
  match b with
  | [] => Ok []
  | x :: b' =>
      if is_ascii (Byte.to_N x)
      then (s <- decode_ascii b' ;; Ok (Byte.to_N x :: s))
      else Raise UnicodeDecodeError
  end.

(* ================================================================== *)
(** ** [django.utils.text.slugify]                                     *)
(* ================================================================== *)

Section Slugify.

(** [unicodedata.normalize('NFKD', _)]: compatibility decomposition, by
    the Unicode character database of the Python runtime.  The table is
    not part of this repository and is taken as a parameter. *)
Variable nfkd : str -> str.

(** [[
    def slugify(value, allow_unicode=False):
        value = str(value)
        if allow_unicode:
            value = unicodedata.normalize('NFKC', value)
        else:
            value = (unicodedata.normalize('NFKD', value)
                     .encode('ascii', 'ignore').decode('ascii'))
        value = re.sub(r'[^\w\s-]', '', value.lower())
        return re.sub(r'[-\s]+', '-', value).strip('-_')
    ]]
    (Django 3.2 and later), at [allow_unicode=False], the only way
    [models.py] calls it. *)
Definition slugify (value : str) : result str :=
  b <- encode_ascii ignore (nfkd value) ;;
  value <- decode_ascii b ;;
  let value :=
    re_sub_class (fun c => negb (re_w c || re_s c || (c =? HYPHEN))) []
                 (lower value) in
  Ok (strip [HYPHEN; UNDERSCORE]
            (re_sub_class_plus (fun c => (c =? HYPHEN) || re_s c) [HYPHEN] value)).

End Slugify.


(* ================================================================== *)
(** ** [models.py]: the Snippet model and its table                    *)
(* ================================================================== *)

(** [[
    class Snippet(models.Model):
        title = models.CharField(max_length=80)
        slug = models.SlugField(blank=True, null=True)
        body = models.TextField()
    ]]
    An instance: [pk] is [None] until the row is inserted, [slug] is
    nullable.  [save] runs no validation ([full_clean] is not called), so
    the lengths of the fields bound nothing here. *)
Record Snippet : Type := mkSnippet {
  pk : option N;
  title : str;
  slug : option str;
  body : str
}.

(** A row of the model's table. *)
Record Row : Type := mkRow {
  row_pk : N;
  row_title : str;
  row_slug : option str;
  row_body : str
}.

(** The table.  Rows are kept in the order of their insertion; the
    database promises no order for a query without ORDER BY, and that
    order is the model's alone. *)
Definition Table := list Row.

(** The concrete fields but the primary key: what [update_fields] may name. *)
Inductive field : Type := f_title | f_slug | f_body.

Definition field_eqb (a b : field) : bool :=
  match a, b with
  | f_title, f_title | f_slug, f_slug | f_body, f_body => true
  | _, _ => false
  end.

(** The arguments of [Model.save] that [Snippet.save] passes on through
    [*args, **kwargs] ([using] apart: there is one database). *)
Record save_kwargs : Type := mkKwargs {
  force_insert : bool;
  force_update : bool;
  update_fields : option (list field)
}.

(** [save()] with no argument. *)
Definition no_kwargs : save_kwargs :=
  {| force_insert := false; force_update := false; update_fields := None |}.

(** Truth of [update_fields] as a Python condition: a list that is not empty. *)
Definition truthy (fs : option (list field)) : bool :=
  match fs with
  | Some (_ :: _) => true
  | _ => false
  end.

(** Whether a write restricted by [update_fields] touches column [f]. *)
Definition writes (fs : option (list field)) (f : field) : bool :=
  match fs with
  | Some (x :: l) => existsb (field_eqb f) (x :: l)
  | _ => true
  end.

Definition row_of (k : N) (o : Snippet) : Row :=
  {| row_pk := k; row_title := title o; row_slug := slug o; row_body := body o |}.

Definition instance_of (r : Row) : Snippet :=
  {| pk := Some (row_pk r); title := row_title r; slug := row_slug r;
     body := row_body r |}.

(** [UPDATE ... SET <the written columns> WHERE id = k] on one row. *)
Definition update_row (fs : option (list field)) (k : N) (o : Snippet) (r : Row) : Row :=
  if row_pk r =? k
  then {| row_pk := k;
          row_title := if writes fs f_title then title o else row_title r;
          row_slug := if writes fs f_slug then slug o else row_slug r;
          row_body := if writes fs f_body then body o else row_body r |}
  else r.

Definition has_pk (k : N) (db : Table) : bool :=
  existsb (fun r => row_pk r =? k) db.

(** The key an [AutoField] gets on insert: one more than the largest in use. *)
Definition next_pk (db : Table) : N :=
  1 + fold_right (fun r m => N.max (row_pk r) m) 0 db.

(** [Model._save_table]: with a key and no [force_insert], try an UPDATE
    and INSERT when it matched no row; without a key, INSERT.  The
    database is taken to accept every write: the errors of a backend (a
    key outside its integer range, text its driver cannot encode, a value
    too long for its column) are not modelled.  The model therefore
    returns wherever the code returns, and with the same row written;
    what is stated of [save] below is stated of calls that return.
    [[
        if not pk_set and (force_update or update_fields):
            raise ValueError(...)
        if pk_set and not force_insert:
            updated = self._do_update(...)
            if force_update and not updated: raise DatabaseError(...)
            if update_fields and not updated: raise DatabaseError(...)
        if not updated:
            ... self._do_insert(...)
    ]] *)
Definition save_table (kw : save_kwargs) (self : Snippet) (db : Table)
  : result (Snippet * Table) :=
  match pk self with
  | None =>
      if force_update kw || truthy (update_fields kw) then Raise ValueError
      else
        let k := next_pk db in
        Ok ({| pk := Some k; title := title self; slug := slug self;
               body := body self |}, db ++ [row_of k self])
  | Some k =>
      if negb (force_insert kw) then
        if has_pk k db
        then Ok (self, map (update_row (update_fields kw) k self) db)
        else if force_update kw then Raise DatabaseError
        else if truthy (update_fields kw) then Raise DatabaseError
        else Ok (self, db ++ [row_of k self])
      else if has_pk k db then Raise IntegrityError
      else Ok (self, db ++ [row_of k self])
  end.

(** [django.db.models.Model.save]:
    [[
        if force_insert and (force_update or update_fields):
            raise ValueError(...)
        if update_fields is not None:
            if not update_fields:
                return
            ...
        self.save_base(...)
    ]] *)
Definition Model_save (kw : save_kwargs) (self : Snippet) (db : Table)
  : result (Snippet * Table) :=
  if force_insert kw && (force_update kw || truthy (update_fields kw))
  then Raise ValueError
  else
    match update_fields kw with
    | Some [] => Ok (self, db)
    | _ => save_table kw self db
    end.

(** [[
    def save(self, *args, **kwargs):
        self.slug = slugify(self.title)
        super().save( *args, **kwargs)
    ]] *)
Definition save (nfkd : str -> str) (kw : save_kwargs) (self : Snippet) (db : Table)
  : result (Snippet * Table) :=
  s <- slugify nfkd (title self) ;;
  let self := {| pk := pk self; title := title self; slug := Some s;
                 body := body self |} in
  Model_save kw self db.

(** How an f-string prints the nullable slug. *)
Definition format_slug (s : option str) : str :=
  match s with
  | Some v => v
  | None => lit "None"
  end.

(** [[
    def get_absolute_url(self):
        return f'/{self.slug}'
    ]] *)
Definition get_absolute_url (self : Snippet) : str :=
  lit "/" ++ format_slug (slug self).

(** [Snippet.objects.all()]. *)
Definition objects_all (db : Table) : list Snippet := map instance_of db.

(** The lookup [slug=value]: a NULL slug equals no value. *)
Definition slug_is (value : str) (o : Snippet) : bool :=
  match slug o with
  | Some s => str_eqb s value
  | None => false
  end.

(** [QuerySet.get(slug=value)]:
    [[
        num = len(clone)
        if num == 1:
            return clone._result_cache[0]
        if not num:
            raise self.model.DoesNotExist(...)
        raise self.model.MultipleObjectsReturned(...)
    ]] *)
Definition QuerySet_get (value : str) (qs : list Snippet) : result Snippet :=
  let clone := filter (slug_is value) qs in
  match clone with
  | [o] => Ok o
  | [] => Raise DoesNotExist
  | _ => Raise MultipleObjectsReturned
  end.

(** [django.shortcuts.get_object_or_404(Snippet, slug=value)]:
    [[
        try:
            return queryset.get( *args, **kwargs)
        except queryset.model.DoesNotExist:
            raise Http404(...)
    ]]
    Only [DoesNotExist] is caught. *)
Definition get_object_or_404 (value : str) (db : Table) : result Snippet :=
  match QuerySet_get value (objects_all db) with
  | Raise DoesNotExist => Raise Http404
  | r => r
  end.

(* ================================================================== *)
(** ** [views.py]                                                      *)
(* ================================================================== *)

Record HttpRequest : Type := mkRequest {
  method : str;
  path_info : str
}.

Record HttpResponse : Type := mkResponse {
  status_code : N;
  content : str
}.

(** [HttpResponse(content)]: status 200. *)
Definition HttpResponse_ (c : str) : HttpResponse :=
  {| status_code := 200; content := c |}.

(** [[
    def about(request):
        return HttpResponse('about page')
    ]] *)
Definition about (request : HttpRequest) : result HttpResponse :=
  Ok (HttpResponse_ (lit "about page")).

(** [[
    def snippet_detail(request, slug):
        snippet = get_object_or_404(Snippet, slug=slug)
        return HttpResponse(f'the detailview for slug of {slug}')
    ]] *)
Definition snippet_detail (request : HttpRequest) (slug : str) (db : Table)
  : result HttpResponse :=
  snippet <- get_object_or_404 slug db ;;
  Ok (HttpResponse_ (lit "the detailview for slug of " ++ slug)).

(* ================================================================== *)
(** ** [urls.py] and the URL resolver                                  *)
(* ================================================================== *)

(** The path converters the routes use; [slug] stands for the regular
    expression [[-a-zA-Z0-9_]+]. *)
Inductive converter : Type := SlugConverter.

Definition converter_class (c : converter) (ch : N) : bool :=
  match c with
  | SlugConverter =>
      (ch =? HYPHEN) || is_lower ch || is_upper ch || is_digit ch
      || (ch =? UNDERSCORE)
  end.

(** A route, cut at its [<converter:name>] components. *)
Inductive part : Type :=
  | Literal (text : str)
  | Param (conv : converter) (name : str).

(** The view functions a route can name. *)
Inductive view : Type := view_about | view_snippet_detail.

(** What [path(route, view, name=None)] builds. *)
Record URLPattern : Type := path {
  route : list part;
  callback : view;
  name : option str
}.

(** The route ['<slug:slug>/']. *)
Definition detail_route : list part :=
  [Param SlugConverter (lit "slug"); Literal (lit "/")].

(** The route ['about/']. *)
Definition about_route : list part := [Literal (lit "about/")].

(** [[
    urlpatterns = [
        path('<slug:slug>/', snippet_detail),
        path('about/', about, name='about'),
    ]
    ]] *)
Definition urlpatterns : list URLPattern :=
  [ path detail_route view_snippet_detail None;
    path about_route view_about (Some (lit "about")) ].

(** The rest of [s] after the prefix [p], when [s] starts with it. *)
Fixpoint strip_prefix (p s : str) : option str :=
  match p, s with
  | [], _ => Some s
  | x :: p', y :: s' => if x =? y then strip_prefix p' s' else None
  | _ :: _, [] => None
  end.

(** Length of the longest prefix of [s] within the class. *)
Fixpoint class_prefix (cls : N -> bool) (s : str) : nat :=
  match s with
  | c :: s' => if cls c then S (class_prefix cls s') else O
  | [] => O
  end.

(** Backtracking of a greedy [+]: the longest candidate first, down to one
    character. *)
Fixpoint first_split {A : Type} (f : nat -> option A) (k : nat) : option A :=
  match k with
  | O => None
  | S k' =>
      match f k with
      | Some a => Some a
      | None => first_split f k'
      end
  end.

(** The match of a route's regular expression ([^ ... \Z]) against a path:
    the captured keyword arguments, or [None]. *)
Fixpoint match_route (ps : list part) (s : str) : option (list (str * str)) :=
  match ps with
  | [] =>
      match s with
      | [] => Some []
      | _ :: _ => None
      end
  | Literal l :: ps' =>
      match strip_prefix l s with
      | Some rest => match_route ps' rest
      | None => None
      end
  | Param conv n :: ps' =>
      first_split
        (fun k =>
           match match_route ps' (skipn k s) with
           | Some kw => Some ((n, firstn k s) :: kw)
           | None => None
           end)
        (class_prefix (converter_class conv) s)
  end.

Record ResolverMatch : Type := mkMatch {
  func : view;
  kwargs : list (str * str)
}.

(** [URLResolver.resolve] over a list of patterns: the first that matches. *)
Fixpoint resolve_in (patterns : list URLPattern) (s : str) : result ResolverMatch :=
  match patterns with
  | [] => Raise Resolver404
  | p :: rest =>
      match match_route (route p) s with
      | Some kw => Ok {| func := callback p; kwargs := kw |}
      | None => resolve_in rest s
      end
  end.

(** Modelled from the spec: the project's URLconf, which includes the
    application's, is not under src/.  The interface description gives the
    routes as [/<slug>/] and [/about/], so the application is mounted at
    the site root: the prefix before its routes is the root slash. *)
Definition root_prefix : str := lit "/".

(** [resolve(path)]: the prefix is consumed, then [urlpatterns] is tried
    in order. *)
Definition resolve (p : str) : result ResolverMatch :=
  match strip_prefix root_prefix p with
  | Some rest => resolve_in urlpatterns rest
  | None => Raise Resolver404
  end.

Definition name_is (n : str) (p : URLPattern) : bool :=
  match name p with
  | Some m => str_eqb m n
  | None => false
  end.

(** The text of a route that has no parameter. *)
Fixpoint literal_route (ps : list part) : option str :=
  match ps with
  | [] => Some []
  | Literal l :: ps' =>
      match literal_route ps' with
      | Some t => Some (l ++ t)
      | None => None
      end
  | Param _ _ :: _ => None
  end.

(** [reverse(viewname)] with no argument: the path of the route of that
    name, which must take no parameter. *)
Definition reverse (viewname : str) : result str :=
  match find (name_is viewname) urlpatterns with
  | Some p =>
      match literal_route (route p) with
      | Some t => Ok (root_prefix ++ t)
      | None => Raise NoReverseMatch
      end
  | None => Raise NoReverseMatch
  end.

(** The call [callback(request, **kwargs)] of the request handler. *)
Definition call_view (v : view) (request : HttpRequest) (kw : list (str * str))
           (db : Table) : result HttpResponse :=
  match v with
  | view_about =>
      match kw with
      | [] => about request
      | _ :: _ => Raise TypeError
      end
  | view_snippet_detail =>
      match kw with
      | [(n, value)] =>
          if str_eqb n (lit "slug") then snippet_detail request value db
          else Raise TypeError
      | _ => Raise TypeError
      end
  end.

(** [response_for_exception]: [Http404] (and its subclass [Resolver404])
    becomes the 404 page, any other exception the 500 page.  The status
    codes are Django's; the bodies stand for its HTML error pages by their
    titles only. *)
Definition response_for_exception (e : exn) : HttpResponse :=
  match e with
  | Http404 | Resolver404 => {| status_code := 404; content := lit "Not Found" |}
  | _ => {| status_code := 500; content := lit "Server Error (500)" |}
  end.

(** The handler boundary around a view's outcome. *)
Definition convert_exception_to_response (r : result HttpResponse) : HttpResponse :=
  match r with
  | Ok resp => resp
  | Raise e => response_for_exception e
  end.

(** [BaseHandler.get_response]: resolve, call the view, turn an exception
    into its response.  This is the dispatch into the application alone:
    no middleware (so no redirect that appends a slash) and no route of
    the project's own beside the application's two. *)
Definition get_response (request : HttpRequest) (db : Table) : HttpResponse :=
  convert_exception_to_response
    (m <- resolve (path_info request) ;;
     call_view (func m) request (kwargs m) db).

(* ================================================================== *)
(** ** [sitemaps.py]                                                   *)
(* ================================================================== *)

(** [django.contrib.sitemaps.Sitemap]: the two methods a subclass gives
    or inherits. *)
Class Sitemap (Item : Type) : Type := {
  items : Table -> list Item;
  location : Item -> result str
}.

(** [[
    class StaticViewSitemap(Sitemap):
        def items(self):
            return ['about']
        def location(self, item):
            return reverse(item)
    ]] *)
#[export] Instance StaticViewSitemap : Sitemap str := {
  items := fun _ => [lit "about"];
  location := fun item => reverse item
}.

(** [[
    class SnippetSitemap(Sitemap):
        def items(self):
            return Snippet.objects.all()
    ]]
    [location] is inherited: [Sitemap.location] returns
    [item.get_absolute_url()]. *)
#[export] Instance SnippetSitemap : Sitemap Snippet := {
  items := fun db => objects_all db;
  location := fun item => Ok (get_absolute_url item)
}.

(** The locations one sitemap contributes: [location] of each item, in
    order; an exception of one propagates. *)
Fixpoint locations_of {Item : Type} (loc : Item -> result str) (l : list Item)
  : result (list str) :=
  match l with
  | [] => Ok []
  | x :: l' => u <- loc x ;; us <- locations_of loc l' ;; Ok (u :: us)
  end.

Definition get_urls {Item : Type} (sm : Sitemap Item) (db : Table) : result (list str) :=
  locations_of (@location Item sm) (@items Item sm db).

(** Modelled from the spec: the registration of the two sitemaps with the
    sitemap view (the project's URLconf is not under src/).  The sitemap
    generator enumerates the static source and the Snippet source. *)
Definition sitemap_urls (db : Table) : result (list str) :=
  a <- get_urls StaticViewSitemap db ;;
  b <- get_urls SnippetSitemap db ;;
  Ok (a ++ b).

(* ================================================================== *)
(** ** What the statements below speak of                              *)
(* ================================================================== *)

(** Facts of the Unicode character database that statements about
    concrete or blank titles assume of [nfkd]: ASCII text has no
    decomposition, and a whitespace character decomposes to whitespace or
    to characters outside ASCII. *)
Definition ascii_fixed (nfkd : str -> str) : Prop :=
  forall s, forallb is_ascii s = true -> nfkd s = s.

Definition blank_preserving (nfkd : str -> str) : Prop :=
  forall s, forallb isspace s = true ->
            forallb (fun c => negb (is_ascii c) || isspace c) (nfkd s) = true.

(** The decomposition of ASCII text, which is the text itself: the
    instance on which the ASCII scenarios are run. *)
Definition nfkd_ascii (s : str) : str := s.

(** The alphabet the specification gives a slug: lowercase ASCII letters,
    digits and hyphens. *)
Definition spec_slug_char (c : N) : bool :=
  is_lower c || is_digit c || (c =? HYPHEN).

(** The alphabet [slugify] produces: the above and the underscore. *)
Definition slug_char (c : N) : bool :=
  is_lower c || is_digit c || (c =? HYPHEN) || (c =? UNDERSCORE).

(** The pure pipeline of [slugify] after the ASCII round trip. *)
Definition slug_of_ascii (value : str) : str :=
  strip [HYPHEN; UNDERSCORE]
    (re_sub_class_plus (fun c => (c =? HYPHEN) || re_s c) [HYPHEN]
       (re_sub_class (fun c => negb (re_w c || re_s c || (c =? HYPHEN))) []
          (lower value))).

(** Two hyphens side by side somewhere in the text. *)
Fixpoint double_hyphen (s : str) : bool :=
  match s with
  | c :: (d :: _) as s' => ((c =? HYPHEN) && (d =? HYPHEN)) || double_hyphen s'
  | _ => false
  end.

Definition starts_with (x : N) (s : str) : bool :=
  match s with
  | c :: _ => c =? x
  | [] => false
  end.

Definition ends_with (x : N) (s : str) : bool := starts_with x (rev s).

(** The row of key [k], as a query by primary key finds it. *)
Definition stored (k : N) (db : Table) : option Row :=
  find (fun r => row_pk r =? k) db.

(** A row whose slug is the slug of its own title. *)
Definition row_synced (nfkd : str -> str) (r : Row) : Prop :=
  exists s, slugify nfkd (row_title r) = Ok s /\ row_slug r = Some s.

(** A row whose slug is the slug of some title. *)
Definition row_derived (nfkd : str -> str) (r : Row) : Prop :=
  exists t s, slugify nfkd t = Ok s /\ row_slug r = Some s.

(** The tables a sequence of calls of [save], with any arguments, builds
    from the empty one. *)
Inductive any_saves (nfkd : str -> str) : Table -> Prop :=
  | any_saves_nil : any_saves nfkd []
  | any_saves_step kw o db o' db' :
      any_saves nfkd db ->
      save nfkd kw o db = Ok (o', db') ->
      any_saves nfkd db'.

(** Case analysis on the comparisons of a goal, closing the branches
    whose bounds contradict each other. *)
Ltac cmp :=
  repeat (match goal with
          | |- context [N.leb ?a ?b] => destruct (N.leb_spec a b)
          | |- context [N.ltb ?a ?b] => destruct (N.ltb_spec a b)
          | |- context [N.eqb ?a ?b] => destruct (N.eqb_spec a b)
          end; simpl; try (exfalso; lia); try reflexivity).

(** The separators of a slug: the hyphen and whitespace. *)
Definition separator (c : N) : bool := (c =? HYPHEN) || isspace c.

(** The characters a slug is made from: word characters, and the
    separators. *)
Definition slug_text (c : N) : bool := re_w c || isspace c || (c =? HYPHEN).

(** The words of a text: its maximal runs of characters that are no
    separator, in order. *)
Fixpoint words (sep : N -> bool) (s : str) : list str :=
  match s with
  | [] => []
  | c :: s' =>
      if sep c then words sep s'
      else
        match s' with
        | d :: _ =>
            if sep d then [c] :: words sep s'
            else
              match words sep s' with
              | w :: ws => (c :: w) :: ws
              | [] => [[c]]
              end
        | [] => [[c]]
        end
  end.

(** The words, with [glue] between each two neighbours. *)
Fixpoint join (glue : str) (ws : list str) : str :=
  match ws with
  | [] => []
  | w :: ws' =>
      match ws' with
      | [] => w
      | _ :: _ => w ++ glue ++ join glue ws'
      end
  end.

(** The slug in words: of the lowercased text, the characters that are
    neither word characters nor separators are removed; what is left is
    cut into words at its runs of separators; the words are joined by
    single hyphens; hyphens and underscores are stripped from both ends. *)
Definition slug_by_words (value : str) : str :=
  strip [HYPHEN; UNDERSCORE]
    (join [HYPHEN] (words separator (filter slug_text (lower value)))).

(** The hyphen a substitution of runs puts first: none inside a run, one
    when the text starts with a separator. *)
Definition run_lead (sep : N -> bool) (in_run : bool) (s : str) : str :=
  if in_run then []
  else
    match s with
    | c :: _ => if sep c then [HYPHEN] else []
    | [] => []
    end.

(** A call of [save] that writes the slug column: no [update_fields], or
    one that names [slug]. *)
Definition slug_written (kw : save_kwargs) : bool :=
  match update_fields kw with
  | None => true
  | Some l => existsb (field_eqb f_slug) l
  end.


(* ================================================================== *)
(** ** Lemmas on the [str] helpers                                     *)
(* ================================================================== *)

Lemma str_eqb_eq (a b : str) : str_eqb a b = true <-> a = b.
Proof.
  revert b; induction a as [|x a IH]; intros [|y b]; simpl; split;
    try congruence; try reflexivity.
  - intros H. apply andb_true_iff in H as [Hx Hab].
    apply N.eqb_eq in Hx. apply IH in Hab. congruence.
  - intros H. injection H as -> ->.
    apply andb_true_iff; split; [apply N.eqb_refl | now apply IH].
Qed.

(** Encoding with [ignore] and decoding again never raises: it keeps the
    ASCII code points. *)
Lemma ascii_round_trip (s : str) :
  (b <- encode_ascii ignore s ;; decode_ascii b) = Ok (filter is_ascii s).
Proof.
  induction s as [|c s IH]; simpl; [reflexivity|].
  destruct (is_ascii c) eqn:Hc; [|exact IH].
  destruct (Byte.of_N c) as [b|] eqn:Hb.
  - apply Byte.to_of_N in Hb.
    destruct (encode_ascii ignore s) as [bs|e]; simpl in *.
    + rewrite Hb, Hc. now rewrite IH.
    + discriminate IH.
  - apply Byte.of_N_None_iff in Hb. unfold is_ascii in Hc.
    apply N.ltb_lt in Hc. lia.
Qed.

Lemma slugify_eq (nfkd : str -> str) (t : str) :
  slugify nfkd t = Ok (slug_of_ascii (filter is_ascii (nfkd t))).
Proof.
  unfold slugify.
  pose proof (ascii_round_trip (nfkd t)) as H.
  destruct (encode_ascii ignore (nfkd t)) as [b|e]; simpl in *.
  - now rewrite H.
  - discriminate H.
Qed.

Lemma lower_char_not_upper (c : N) : is_upper (lower_char c) = false.
Proof.
  unfold lower_char. destruct (is_upper c) eqn:E; [|exact E].
  unfold is_upper, in_range in *. apply andb_true_iff in E as [H1 H2].
  apply N.leb_le in H1. apply N.leb_le in H2. cmp.
Qed.

Lemma lower_char_space (c : N) : isspace c = true -> lower_char c = c.
Proof.
  unfold lower_char, is_upper, in_range. intros H.
  destruct (65 <=? c) eqn:H1; simpl; [|reflexivity].
  destruct (c <=? 90) eqn:H2; simpl; [|reflexivity].
  apply N.leb_le in H1. apply N.leb_le in H2.
  revert H. unfold isspace, in_range. cmp. discriminate.
Qed.

Lemma in_re_sub_class_empty (cls : N -> bool) (s : str) (c : N) :
  In c (re_sub_class cls [] s) <-> In c s /\ cls c = false.
Proof.
  unfold re_sub_class. rewrite in_flat_map. split.
  - intros [x [Hx Hc]]. destruct (cls x) eqn:E; simpl in Hc; [contradiction|].
    destruct Hc as [->|[]]. now split.
  - intros [Hc E]. exists c. split; [assumption|]. rewrite E. now left.
Qed.

Lemma re_sub_class_none (cls : N -> bool) (repl s : str) :
  forallb (fun c => negb (cls c)) s = true -> re_sub_class cls repl s = s.
Proof.
  unfold re_sub_class. induction s as [|c s IH]; simpl; [reflexivity|].
  intros H. apply andb_true_iff in H as [Hc Hs].
  apply negb_true_iff in Hc. rewrite Hc. simpl. now rewrite IH.
Qed.

Lemma sub_runs_Forall (P : N -> Prop) (cls : N -> bool) (repl : str) :
  Forall P repl ->
  forall (s : str) (b : bool),
    (forall c, In c s -> cls c = false -> P c) ->
    Forall P (sub_runs cls repl b s).
Proof.
  intros Hr. induction s as [|c s IH]; intros b Hs; simpl; [constructor|].
  assert (Hs' : forall x, In x s -> cls x = false -> P x)
    by (intros x Hx; apply Hs; now right).
  destruct (cls c) eqn:E.
  - destruct b; [now apply IH|]. apply Forall_app. split; [assumption|now apply IH].
  - constructor; [apply Hs; [now left|assumption] | now apply IH].
Qed.

Lemma sub_runs_all (cls : N -> bool) (repl s : str) :
  forallb cls s = true -> sub_runs cls repl true s = [].
Proof.
  induction s as [|c s IH]; simpl; [reflexivity|].
  intros H. apply andb_true_iff in H as [Hc Hs]. rewrite Hc. now apply IH.
Qed.

Lemma sub_runs_hyphens (cls : N -> bool) :
  cls HYPHEN = true ->
  forall (s : str) (b : bool),
    double_hyphen (sub_runs cls [HYPHEN] b s) = false
    /\ starts_with HYPHEN (sub_runs cls [HYPHEN] true s) = false.
Proof.
  intros Hcls. induction s as [|c s IH]; intros b; simpl; [now split|].
  destruct (IH true) as [IHd IHs]. destruct (IH false) as [IHd' _].
  destruct (cls c) eqn:E.
  - split; [|assumption]. destruct b; [assumption|].
    simpl. destruct (sub_runs cls [HYPHEN] true s) as [|d r] eqn:Er; [reflexivity|].
    simpl in IHs. change (((HYPHEN =? HYPHEN) && (d =? HYPHEN))
                          || double_hyphen (d :: r) = false).
    rewrite IHs, andb_false_r. exact IHd.
  - assert (Hc : (c =? HYPHEN) = false).
    { apply N.eqb_neq. intros ->. congruence. }
    split; [|exact Hc].
    destruct (sub_runs cls [HYPHEN] false s) as [|d r] eqn:Er; [reflexivity|].
    change (((c =? HYPHEN) && (d =? HYPHEN)) || double_hyphen (d :: r) = false).
    rewrite Hc. exact IHd'.
Qed.

Lemma double_hyphen_app (a b : str) :
  double_hyphen (a ++ b) = false ->
  double_hyphen a = false /\ double_hyphen b = false.
Proof.
  induction a as [|c a IH]; simpl; intros H; [now split|].
  destruct a as [|d a'].
  - simpl in H. split; [reflexivity|].
    destruct b as [|d b']; [reflexivity|].
    apply orb_false_iff in H as [_ H]. exact H.
  - simpl app in H. apply orb_false_iff in H as [H1 H2].
    destruct (IH H2) as [Ha Hb]. split; [|assumption].
    apply orb_false_iff. now split.
Qed.

(** What [strip] removes sits before and after what it returns. *)
Lemma lstrip_suffix (chars s : str) : exists p, s = p ++ lstrip chars s.
Proof.
  induction s as [|c s [p IH]]; simpl; [now exists []|].
  destruct (mem c chars).
  - exists (c :: p). simpl. now rewrite <- IH.
  - now exists [].
Qed.

Lemma rstrip_prefix (chars s : str) : exists q, s = rstrip chars s ++ q.
Proof.
  unfold rstrip. destruct (lstrip_suffix chars (rev s)) as [p Hp].
  exists (rev p). rewrite <- rev_app_distr, <- Hp. now rewrite rev_involutive.
Qed.

Lemma strip_infix (chars s : str) : exists p q, s = p ++ strip chars s ++ q.
Proof.
  unfold strip. destruct (lstrip_suffix chars s) as [p Hp].
  destruct (rstrip_prefix chars (lstrip chars s)) as [q Hq].
  exists p, q. now rewrite <- Hq.
Qed.

Lemma lstrip_head (chars s : str) (x : N) :
  mem x chars = true -> starts_with x (lstrip chars s) = false.
Proof.
  intros Hx. induction s as [|c s IH]; simpl; [reflexivity|].
  destruct (mem c chars) eqn:E; [assumption|]. simpl.
  apply N.eqb_neq. intros ->. congruence.
Qed.

Lemma rstrip_last (chars s : str) (x : N) :
  mem x chars = true -> ends_with x (rstrip chars s) = false.
Proof.
  intros Hx. unfold ends_with, rstrip. rewrite rev_involutive.
  now apply lstrip_head.
Qed.

Lemma rstrip_head (chars s : str) (x : N) :
  starts_with x s = false -> starts_with x (rstrip chars s) = false.
Proof.
  intros H. destruct (rstrip_prefix chars s) as [q Hq].
  destruct (rstrip chars s) as [|c r]; [reflexivity|].
  rewrite Hq in H. exact H.
Qed.

Lemma strip_ends (chars s : str) (x : N) :
  mem x chars = true ->
  starts_with x (strip chars s) = false /\ ends_with x (strip chars s) = false.
Proof.
  intros Hx. unfold strip. split.
  - apply rstrip_head. now apply lstrip_head.
  - now apply rstrip_last.
Qed.

(** The characters that survive the first substitution of [slugify]. *)
Lemma kept_char (c : N) :
  (re_w c || re_s c || (c =? HYPHEN)) = true ->
  is_upper c = false ->
  ((c =? HYPHEN) || re_s c) = false ->
  slug_char c = true.
Proof.
  unfold slug_char, re_w.
  destruct (is_upper c), (is_lower c), (is_digit c), (c =? UNDERSCORE),
    (c =? HYPHEN), (re_s c); simpl; congruence.
Qed.

Lemma slug_of_ascii_alphabet (v : str) : forallb slug_char (slug_of_ascii v) = true.
Proof.
  apply forallb_forall. intros c Hc. unfold slug_of_ascii in Hc.
  destruct (strip_infix [HYPHEN; UNDERSCORE]
              (re_sub_class_plus (fun c => (c =? HYPHEN) || re_s c) [HYPHEN]
                 (re_sub_class (fun c => negb (re_w c || re_s c || (c =? HYPHEN))) []
                    (lower v)))) as [p [q Hpq]].
  assert (HF : Forall (fun x => slug_char x = true)
                 (re_sub_class_plus (fun c => (c =? HYPHEN) || re_s c) [HYPHEN]
                    (re_sub_class (fun c => negb (re_w c || re_s c || (c =? HYPHEN))) []
                       (lower v)))).
  { apply sub_runs_Forall.
    - now repeat constructor.
    - intros x Hx Hsep. apply in_re_sub_class_empty in Hx as [Hx Hk].
      apply negb_false_iff in Hk. unfold lower in Hx.
      apply in_map_iff in Hx as [y [<- _]].
      apply kept_char; [assumption | apply lower_char_not_upper | assumption]. }
  rewrite Hpq in HF. apply Forall_app in HF as [_ HF].
  apply Forall_app in HF as [HF _].
  rewrite Forall_forall in HF. now apply HF.
Qed.

Lemma slug_of_ascii_hyphens (v : str) :
  double_hyphen (slug_of_ascii v) = false
  /\ starts_with HYPHEN (slug_of_ascii v) = false
  /\ ends_with HYPHEN (slug_of_ascii v) = false
  /\ starts_with UNDERSCORE (slug_of_ascii v) = false
  /\ ends_with UNDERSCORE (slug_of_ascii v) = false.
Proof.
  unfold slug_of_ascii.
  set (w := re_sub_class_plus _ _ _).
  assert (Hd : double_hyphen w = false).
  { apply (sub_runs_hyphens (fun c => (c =? HYPHEN) || re_s c)). reflexivity. }
  destruct (strip_infix [HYPHEN; UNDERSCORE] w) as [p [q Hpq]].
  rewrite Hpq in Hd. apply double_hyphen_app in Hd as [_ Hd].
  apply double_hyphen_app in Hd as [Hd _].
  destruct (strip_ends [HYPHEN; UNDERSCORE] w HYPHEN eq_refl) as [H1 H2].
  destruct (strip_ends [HYPHEN; UNDERSCORE] w UNDERSCORE eq_refl) as [H3 H4].
  repeat split; assumption.
Qed.

Lemma slug_of_ascii_blank (v : str) :
  forallb isspace v = true -> slug_of_ascii v = [].
Proof.
  intros Hv. unfold slug_of_ascii.
  assert (Hl : lower v = v).
  { unfold lower. induction v as [|c v IH]; simpl in *; [reflexivity|].
    apply andb_true_iff in Hv as [Hc Hv].
    rewrite (lower_char_space c Hc). now rewrite IH. }
  rewrite Hl. rewrite re_sub_class_none.
  - destruct v as [|c v]; [reflexivity|]. simpl in Hv.
    apply andb_true_iff in Hv as [Hc Hv].
    unfold re_sub_class_plus, re_s. simpl. rewrite Hc, orb_true_r.
    rewrite sub_runs_all; [reflexivity|].
    apply forallb_forall. intros x Hx.
    rewrite forallb_forall in Hv. now rewrite (Hv x Hx), orb_true_r.
  - apply forallb_forall. intros x Hx. rewrite forallb_forall in Hv.
    unfold re_s. now rewrite (Hv x Hx), orb_true_r, negb_involutive.
Qed.

Lemma slugify_ascii (nfkd : str -> str) (t : str) :
  ascii_fixed nfkd -> forallb is_ascii t = true ->
  slugify nfkd t = slugify nfkd_ascii t.
Proof. intros H Ht. unfold slugify, nfkd_ascii. now rewrite (H t Ht). Qed.

Lemma nfkd_ascii_blank : blank_preserving nfkd_ascii.
Proof.
  intros s Hs. unfold nfkd_ascii. apply forallb_forall. intros c Hc.
  rewrite forallb_forall in Hs. now rewrite (Hs c Hc), orb_true_r.
Qed.

Lemma ascii_part_blank (s : str) :
  forallb (fun c => negb (is_ascii c) || isspace c) s = true ->
  forallb isspace (filter is_ascii s) = true.
Proof.
  induction s as [|c s IH]; simpl; [reflexivity|].
  intros H. apply andb_true_iff in H as [Hc Hs].
  destruct (is_ascii c); simpl in *; [|now apply IH].
  rewrite Hc. now apply IH.
Qed.

(* ================================================================== *)
(** ** Lemmas on runs of separators and words                          *)
(* ================================================================== *)

Lemma re_sub_class_filter (keep : N -> bool) (s : str) :
  re_sub_class (fun c => negb (keep c)) [] s = filter keep s.
Proof.
  unfold re_sub_class. induction s as [|c s IH]; simpl; [reflexivity|].
  destruct (keep c); simpl; now rewrite IH.
Qed.

Lemma join_cons_word (glue : str) (c : N) (w : str) (ws : list str) :
  join glue ((c :: w) :: ws) = c :: join glue (w :: ws).
Proof. simpl. now destruct ws. Qed.

(** What the substitution of runs returns: the leading hyphen, the words
    joined by single hyphens, and at most hyphens after them. *)
Lemma sub_runs_words (sep : N -> bool) (s : str) (b : bool) :
  exists trail,
    forallb (N.eqb HYPHEN) trail = true
    /\ sub_runs sep [HYPHEN] b s
       = run_lead sep b s ++ join [HYPHEN] (words sep s) ++ trail.
Proof.
  revert b. induction s as [|c s IH]; intros b.
  - exists []. split; [reflexivity|]. now destruct b.
  - cbn [sub_runs words]. destruct (sep c) eqn:Ec.
    + destruct (IH true) as [trail [Ht E]]. exists trail.
      split; [assumption|]. unfold run_lead in *. rewrite Ec.
      destruct b; rewrite E; reflexivity.
    + destruct (IH false) as [trail [Ht E]]. rewrite E.
      assert (Hl : run_lead sep b (c :: s) = []).
      { unfold run_lead. rewrite Ec. now destruct b. }
      rewrite Hl. clear Hl. unfold run_lead.
      destruct s as [|d s']; [exists trail; now split|].
      destruct (sep d) eqn:Ed.
      * destruct (words sep (d :: s')) as [|w ws] eqn:Ew.
        -- exists (HYPHEN :: trail). split; [exact Ht|reflexivity].
        -- exists trail. split; [exact Ht|reflexivity].
      * destruct (words sep (d :: s')) as [|w ws] eqn:Ew.
        -- exists trail. now split.
        -- exists trail. split; [exact Ht|]. now rewrite join_cons_word.
Qed.

Lemma lstrip_app_all (chars x z : str) :
  forallb (fun c => mem c chars) x = true ->
  lstrip chars (x ++ z) = lstrip chars z.
Proof.
  induction x as [|c x IH]; simpl; [reflexivity|].
  intros H. apply andb_true_iff in H as [Hc Hx]. rewrite Hc. now apply IH.
Qed.

Lemma lstrip_all (chars x : str) :
  forallb (fun c => mem c chars) x = true -> lstrip chars x = [].
Proof.
  intros H. rewrite <- (app_nil_r x). now rewrite (lstrip_app_all chars x [] H).
Qed.

Lemma lstrip_app_some (chars x z : str) :
  forallb (fun c => mem c chars) x = false ->
  lstrip chars (x ++ z) = lstrip chars x ++ z.
Proof.
  induction x as [|c x IH]; simpl; [discriminate|].
  destruct (mem c chars); simpl; [exact IH|reflexivity].
Qed.

Lemma forallb_rev (p : N -> bool) (s : str) :
  forallb p s = true -> forallb p (rev s) = true.
Proof.
  intros H. apply forallb_forall. intros c Hc. apply in_rev in Hc.
  rewrite forallb_forall in H. now apply H.
Qed.

Lemma rstrip_app_all (chars y z : str) :
  forallb (fun c => mem c chars) z = true ->
  rstrip chars (y ++ z) = rstrip chars y.
Proof.
  intros H. unfold rstrip. rewrite rev_app_distr.
  rewrite lstrip_app_all; [reflexivity|now apply forallb_rev].
Qed.

(** Characters of the stripped set around a text do not change what
    [strip] returns. *)
Lemma strip_pad (chars lead x trail : str) :
  forallb (fun c => mem c chars) lead = true ->
  forallb (fun c => mem c chars) trail = true ->
  strip chars (lead ++ x ++ trail) = strip chars x.
Proof.
  intros Hl Ht. unfold strip. rewrite (lstrip_app_all chars lead _ Hl).
  destruct (forallb (fun c => mem c chars) x) eqn:Hx.
  - rewrite (lstrip_app_all chars x trail Hx).
    now rewrite (lstrip_all chars trail Ht), (lstrip_all chars x Hx).
  - rewrite (lstrip_app_some chars x trail Hx).
    now apply rstrip_app_all.
Qed.

Lemma hyphens_stripped (l : str) :
  forallb (N.eqb HYPHEN) l = true ->
  forallb (fun c => mem c [HYPHEN; UNDERSCORE]) l = true.
Proof.
  intros H. apply forallb_forall. intros c Hc.
  rewrite forallb_forall in H. specialize (H c Hc).
  apply N.eqb_eq in H. now subst c.
Qed.

(** Every word is a run, not empty, of characters that are no separator. *)
Lemma words_wellformed (sep : N -> bool) (s : str) :
  Forall (fun w => w <> [] /\ forallb sep w = false
                   /\ forallb (fun c => negb (sep c)) w = true)
         (words sep s).
Proof.
  induction s as [|c s IH]; [constructor|]. cbn [words].
  destruct (sep c) eqn:Ec; [exact IH|].
  assert (H1 : [c] <> [] /\ forallb sep [c] = false
               /\ forallb (fun x => negb (sep x)) [c] = true).
  { simpl. rewrite Ec. repeat split. discriminate. }
  destruct s as [|d s']; [repeat constructor; apply H1|].
  destruct (sep d) eqn:Ed; [constructor; [apply H1|exact IH]|].
  destruct (words sep (d :: s')) as [|w ws]; [repeat constructor; apply H1|].
  inversion IH as [|w' ws' [Hne [Hs Hw]] Hws]; subst.
  constructor; [|exact Hws]. simpl. rewrite Ec. simpl.
  repeat split; [discriminate|assumption].
Qed.

(** The pipeline of [slugify] computes the slug in words. *)
Lemma slug_of_ascii_by_words (v : str) : slug_of_ascii v = slug_by_words v.
Proof.
  unfold slug_of_ascii, slug_by_words, re_sub_class_plus.
  change (fun c : N => negb (re_w c || re_s c || (c =? HYPHEN)))
    with (fun c : N => negb (slug_text c)).
  rewrite re_sub_class_filter.
  change (fun c : N => (c =? HYPHEN) || re_s c) with separator.
  destruct (sub_runs_words separator (filter slug_text (lower v)) false)
    as [trail [Ht E]].
  rewrite E. apply strip_pad.
  - unfold run_lead. destruct (filter slug_text (lower v)) as [|c r];
      [reflexivity|]. now destruct (separator c).
  - now apply hyphens_stripped.
Qed.

(* ================================================================== *)
(** ** Slug derivation                                                 *)
(* ================================================================== *)

(** C2, as the code has it.  For every title, [slugify] returns the slug
    in words: of the lowercased ASCII part of the decomposed title, the
    characters that are neither letters, digits, underscores, hyphens nor
    whitespace are removed, the runs of whitespace and hyphens between
    the words left are collapsed to single hyphens, and hyphens and
    underscores are stripped from both ends.  The words are not empty and
    hold no separator.  The slug is made of lowercase ASCII letters,
    digits, hyphens and underscores only, no two hyphens are adjacent, and
    it neither starts nor ends with a hyphen or an underscore. *)
Theorem slugify_alphabet (nfkd : str -> str) (t : str) :
  exists s,
    slugify nfkd t = Ok s
    /\ s = strip [HYPHEN; UNDERSCORE]
             (join [HYPHEN]
                (words separator
                   (filter slug_text (lower (filter is_ascii (nfkd t))))))
    /\ Forall (fun w => w <> [] /\ forallb separator w = false
                        /\ forallb (fun c => negb (separator c)) w = true)
              (words separator
                 (filter slug_text (lower (filter is_ascii (nfkd t)))))
    /\ forallb slug_char s = true
    /\ double_hyphen s = false
    /\ starts_with HYPHEN s = false /\ ends_with HYPHEN s = false
    /\ starts_with UNDERSCORE s = false /\ ends_with UNDERSCORE s = false.
Proof.
  exists (slug_of_ascii (filter is_ascii (nfkd t))).
  split; [apply slugify_eq|].
  split; [apply slug_of_ascii_by_words|].
  split; [apply words_wellformed|].
  split; [apply slug_of_ascii_alphabet|].
  apply slug_of_ascii_hyphens.
Qed.

(** C2, as the specification words it, fails twice.  The title [a_b]
    derives the slug [a_b], and the underscore is none of lowercase
    letter, digit or hyphen.  The title [a!b] derives [ab]: the run of
    punctuation between [a] and [b] is removed, not collapsed to a hyphen,
    where a run of whitespace ([a  b]) is. *)
Lemma slugify_underscore_and_punctuation :
  (forall nfkd, ascii_fixed nfkd -> slugify nfkd (lit "a_b") = Ok (lit "a_b"))
  /\ forallb spec_slug_char (lit "a_b") = false
  /\ (forall nfkd, ascii_fixed nfkd -> slugify nfkd (lit "a!b") = Ok (lit "ab"))
  /\ mem HYPHEN (lit "ab") = false
  /\ (forall nfkd, ascii_fixed nfkd -> slugify nfkd (lit "a  b") = Ok (lit "a-b")).
Proof.
  split; [|split; [reflexivity|split; [|split; [reflexivity|]]]].
  - intros nfkd H. rewrite (slugify_ascii nfkd (lit "a_b") H eq_refl). reflexivity.
  - intros nfkd H. rewrite (slugify_ascii nfkd (lit "a!b") H eq_refl). reflexivity.
  - intros nfkd H. rewrite (slugify_ascii nfkd (lit "a  b") H eq_refl). reflexivity.
Qed.

(** C6.  The two slug scenarios: the title [Hello World] derives
    [hello-world] and [  Multiple   Spaces!! ] derives [multiple-spaces];
    saving a new Snippet with the first title stores that slug. *)
Theorem scenario_slugs (nfkd : str -> str) (H : ascii_fixed nfkd) :
  slugify nfkd (lit "Hello World") = Ok (lit "hello-world")
  /\ slugify nfkd (lit "  Multiple   Spaces!! ") = Ok (lit "multiple-spaces")
  /\ forall b,
       save nfkd no_kwargs (mkSnippet None (lit "Hello World") None b) []
       = Ok (mkSnippet (Some 1) (lit "Hello World") (Some (lit "hello-world")) b,
             [mkRow 1 (lit "Hello World") (Some (lit "hello-world")) b]).
Proof.
  assert (H1 : slugify nfkd (lit "Hello World") = Ok (lit "hello-world")).
  { rewrite (slugify_ascii nfkd (lit "Hello World") H eq_refl). reflexivity. }
  split; [exact H1|]. split.
  - rewrite (slugify_ascii nfkd (lit "  Multiple   Spaces!! ") H eq_refl).
    reflexivity.
  - intros b. unfold save. simpl title. rewrite H1. reflexivity.
Qed.

Lemma scenario_slugs_witness :
  slugify nfkd_ascii (lit "Hello World") = Ok (lit "hello-world")
  /\ slugify nfkd_ascii (lit "  Multiple   Spaces!! ") = Ok (lit "multiple-spaces")
  /\ forall b,
       save nfkd_ascii no_kwargs (mkSnippet None (lit "Hello World") None b) []
       = Ok (mkSnippet (Some 1) (lit "Hello World") (Some (lit "hello-world")) b,
             [mkRow 1 (lit "Hello World") (Some (lit "hello-world")) b]).
Proof. apply (scenario_slugs nfkd_ascii). intros s _. reflexivity. Defined.

(** C8.  Slug derivation never raises: every title has a slug.  A title
    that is empty or made of whitespace only has the empty slug. *)
Theorem slugify_total (nfkd : str -> str) :
  (forall t, exists s, slugify nfkd t = Ok s)
  /\ (blank_preserving nfkd ->
      forall t, forallb isspace t = true -> slugify nfkd t = Ok []).
Proof.
  split.
  - intros t. eexists. apply slugify_eq.
  - intros H t Ht. rewrite slugify_eq. f_equal.
    apply slug_of_ascii_blank, ascii_part_blank, H, Ht.
Qed.

Lemma slugify_total_witness :
  slugify nfkd_ascii [] = Ok []
  /\ slugify nfkd_ascii (lit "   ") = Ok []
  /\ slugify nfkd_ascii [9; 10; 32] = Ok [].
Proof.
  pose proof (proj2 (slugify_total nfkd_ascii) nfkd_ascii_blank) as H.
  repeat split; apply H; reflexivity.
Defined.

(* ================================================================== *)
(** ** Lemmas on the table                                             *)
(* ================================================================== *)

Lemma row_pk_below_next (db : Table) (r : Row) : In r db -> row_pk r < next_pk db.
Proof.
  unfold next_pk. induction db as [|x db IH]; [contradiction|].
  cbn [fold_right In]. intros [->|Hr].
  - pose proof (N.le_max_l (row_pk r) (fold_right (fun r m => N.max (row_pk r) m) 0 db)).
    lia.
  - specialize (IH Hr).
    pose proof (N.le_max_r (row_pk x) (fold_right (fun r m => N.max (row_pk r) m) 0 db)).
    lia.
Qed.

Lemma next_pk_fresh (db : Table) : has_pk (next_pk db) db = false.
Proof.
  unfold has_pk. destruct (existsb _ db) eqn:E; [|reflexivity].
  apply existsb_exists in E as [r [Hr Hk]]. apply N.eqb_eq in Hk.
  pose proof (row_pk_below_next db r Hr). lia.
Qed.

Lemma stored_app_new (k : N) (db : Table) (r : Row) :
  has_pk k db = false -> row_pk r = k -> stored k (db ++ [r]) = Some r.
Proof.
  unfold has_pk, stored. intros H Hr.
  induction db as [|x db IH]; simpl in *.
  - now rewrite Hr, N.eqb_refl.
  - apply orb_false_iff in H as [Hx H]. rewrite Hx. now apply IH.
Qed.

Lemma update_row_pk (fs : option (list field)) (k : N) (o : Snippet) (r : Row) :
  row_pk (update_row fs k o r) = row_pk r.
Proof.
  unfold update_row. destruct (row_pk r =? k) eqn:E; [|reflexivity].
  apply N.eqb_eq in E. now rewrite E.
Qed.

Lemma stored_update (fs : option (list field)) (k : N) (o : Snippet) (db : Table) :
  has_pk k db = true ->
  exists r0, In r0 db /\ row_pk r0 = k
             /\ stored k (map (update_row fs k o) db) = Some (update_row fs k o r0).
Proof.
  unfold has_pk, stored. induction db as [|x db IH]; simpl; [discriminate|].
  intros H. rewrite update_row_pk. destruct (row_pk x =? k) eqn:E.
  - exists x. apply N.eqb_eq in E. repeat split; [now left|assumption].
  - simpl in H. destruct (IH H) as [r0 [Hin [Hk Hs]]].
    exists r0. repeat split; [now right|assumption|assumption].
Qed.

(** What a call of [save] that writes the whole row does when it returns. *)
Lemma save_full (nfkd : str -> str) kw o db o' db' :
  update_fields kw = None ->
  save nfkd kw o db = Ok (o', db') ->
  exists k s,
    slugify nfkd (title o) = Ok s
    /\ o' = mkSnippet (Some k) (title o) (Some s) (body o)
    /\ ((has_pk k db = false
         /\ db' = db ++ [mkRow k (title o) (Some s) (body o)])
        \/ (has_pk k db = true
            /\ db' = map (update_row None k o') db)).
Proof.
  intros Hf. unfold save. rewrite slugify_eq. simpl.
  set (s := slug_of_ascii (filter is_ascii (nfkd (title o)))).
  unfold Model_save, save_table. rewrite Hf. simpl.
  rewrite !orb_false_r.
  destruct (pk o) as [k|] eqn:Hk; simpl.
  - destruct (force_insert kw) eqn:Fi, (force_update kw) eqn:Fu; simpl;
      try discriminate;
      destruct (has_pk k db) eqn:Hp; try discriminate;
      intros H; injection H as <- <-; exists k, s;
      (split; [reflexivity|]); (split; [reflexivity|]);
      solve [left; split; [assumption|reflexivity]
            | right; split; [assumption|reflexivity]].
  - destruct (force_insert kw) eqn:Fi, (force_update kw) eqn:Fu; simpl;
      try discriminate;
      intros H; injection H as <- <-; exists (next_pk db), s;
      (split; [reflexivity|]); (split; [reflexivity|]);
      left; (split; [apply next_pk_fresh|reflexivity]).
Qed.

Lemma save_full_stored (nfkd : str -> str) kw o db o' db' :
  update_fields kw = None ->
  save nfkd kw o db = Ok (o', db') ->
  exists k s,
    slugify nfkd (title o) = Ok s
    /\ o' = mkSnippet (Some k) (title o) (Some s) (body o)
    /\ stored k db' = Some (mkRow k (title o) (Some s) (body o)).
Proof.
  intros Hf Hs. destruct (save_full nfkd kw o db o' db' Hf Hs)
    as [k [s [Hslug [Ho [[Hp ->]|[Hp ->]]]]]];
    exists k, s; (split; [assumption|]); (split; [assumption|]).
  - now apply stored_app_new.
  - destruct (stored_update None k o' db Hp) as [r0 [_ [Hk ->]]].
    unfold update_row. rewrite Hk, N.eqb_refl, Ho. reflexivity.
Qed.

(* ================================================================== *)
(** ** [Snippet.save]                                                  *)
(* ================================================================== *)

Lemma save_ascii (nfkd : str -> str) kw o db :
  ascii_fixed nfkd -> forallb is_ascii (title o) = true ->
  save nfkd kw o db = save nfkd_ascii kw o db.
Proof. intros H Ht. unfold save. now rewrite (slugify_ascii nfkd (title o) H Ht). Qed.

(** C3 on the code.  A plain [save] of a new Snippet titled [A] stores
    the slug [a]; the title is then changed to [B] and the record saved
    with [update_fields=['title']]: [save] recomputes the slug [b] on the
    instance, but the write is restricted to the title, so the row keeps
    the slug [a] under the title [B] and is out of sync. *)
Theorem save_title_only_leaves_stale_slug :
  (forall nfkd, ascii_fixed nfkd ->
     save nfkd no_kwargs (mkSnippet None (lit "A") None (lit "x")) []
     = Ok (mkSnippet (Some 1) (lit "A") (Some (lit "a")) (lit "x"),
           [mkRow 1 (lit "A") (Some (lit "a")) (lit "x")]))
  /\ (forall nfkd, ascii_fixed nfkd ->
       save nfkd (mkKwargs false false (Some [f_title]))
            (mkSnippet (Some 1) (lit "B") (Some (lit "a")) (lit "x"))
            [mkRow 1 (lit "A") (Some (lit "a")) (lit "x")]
       = Ok (mkSnippet (Some 1) (lit "B") (Some (lit "b")) (lit "x"),
             [mkRow 1 (lit "B") (Some (lit "a")) (lit "x")]))
  /\ (forall nfkd, ascii_fixed nfkd ->
       ~ Forall (row_synced nfkd) [mkRow 1 (lit "B") (Some (lit "a")) (lit "x")]).
Proof.
  split; [|split].
  - intros nfkd H. rewrite save_ascii; [reflexivity | assumption | reflexivity].
  - intros nfkd H. rewrite save_ascii; [reflexivity | assumption | reflexivity].
  - intros nfkd H HF. inversion HF as [|r l [s [Hs Hr]] _]; subst.
    simpl in Hs, Hr. rewrite (slugify_ascii nfkd (lit "B") H eq_refl) in Hs.
    injection Hr as <-. discriminate Hs.
Qed.

(** What [Model.save] returns and leaves: the record with its fields as
    they were and its key set, and the table untouched (an empty
    [update_fields]), with one row more under a key not in use, or with
    the rows of the record's key updated. *)
Lemma Model_save_result kw self db o' db' :
  Model_save kw self db = Ok (o', db') ->
  title o' = title self /\ slug o' = slug self /\ body o' = body self
  /\ ((update_fields kw = Some [] /\ pk o' = pk self /\ db' = db)
      \/ (exists k, pk o' = Some k /\ (pk self = None \/ pk self = Some k)
                    /\ has_pk k db = false /\ db' = db ++ [row_of k self])
      \/ (exists k, pk o' = Some k /\ pk self = Some k /\ has_pk k db = true
                    /\ db' = map (update_row (update_fields kw) k self) db)).
Proof.
  unfold Model_save, save_table.
  destruct (force_insert kw), (force_update kw),
    (update_fields kw) as [[|f fs]|], (pk self) as [k|] eqn:Hk; simpl;
    try discriminate;
    try (destruct (has_pk k db) eqn:Hp); try discriminate;
    intros H; injection H as <- <-; simpl; repeat split;
    try (left; now repeat split);
    try (right; left; exists k; repeat split; auto; fail);
    try (right; right; exists k; repeat split; auto; fail);
    right; left; exists (next_pk db); repeat split; auto; apply next_pk_fresh.
Qed.

Lemma has_pk_update (fs : option (list field)) (k k' : N) (o : Snippet) (db : Table) :
  has_pk k' (map (update_row fs k o) db) = has_pk k' db.
Proof.
  unfold has_pk. induction db as [|r db IH]; simpl; [reflexivity|].
  now rewrite update_row_pk, IH.
Qed.

Lemma has_pk_app_new (k : N) (db : Table) (r : Row) :
  row_pk r = k -> has_pk k (db ++ [r]) = true.
Proof.
  intros H. unfold has_pk. rewrite existsb_app. simpl.
  now rewrite H, N.eqb_refl, orb_true_r.
Qed.

Lemma has_pk_false_row (k : N) (db : Table) (r : Row) :
  has_pk k db = false -> In r db -> row_pk r <> k.
Proof.
  unfold has_pk. intros H Hin E.
  assert (Ht : existsb (fun r => row_pk r =? k) db = true).
  { apply existsb_exists. exists r. split; [assumption|now apply N.eqb_eq]. }
  congruence.
Qed.

(** Every row of key [k] has the slug [s], and there is one: the row a
    query by key finds has it. *)
Lemma stored_of_keyed (k : N) (s : str) (db : Table) :
  has_pk k db = true ->
  (forall r, In r db -> row_pk r = k -> row_slug r = Some s) ->
  option_map row_slug (stored k db) = Some (Some s).
Proof.
  unfold has_pk, stored. intros Hp Hall.
  destruct (find (fun r => row_pk r =? k) db) as [r|] eqn:E.
  - apply find_some in E as [Hin Hk]. apply N.eqb_eq in Hk.
    simpl. now rewrite (Hall r Hin Hk).
  - apply existsb_exists in Hp as [r [Hin Hk]].
    pose proof (find_none _ _ E r Hin) as Hn. simpl in Hn. congruence.
Qed.

Lemma slug_written_writes (kw : save_kwargs) :
  slug_written kw = true ->
  update_fields kw <> Some [] /\ writes (update_fields kw) f_slug = true.
Proof.
  unfold slug_written, writes. destruct (update_fields kw) as [[|f fs]|];
    simpl; intros H; split; try discriminate; try reflexivity; assumption.
Qed.

(** A call of [save] that writes the slug column and returns: every row
    of the record's key has the slug of the record's title. *)
Lemma save_writes_slug (nfkd : str -> str) kw o db o1 db1 :
  slug_written kw = true ->
  save nfkd kw o db = Ok (o1, db1) ->
  exists k s,
    slugify nfkd (title o) = Ok s
    /\ pk o1 = Some k /\ title o1 = title o
    /\ has_pk k db1 = true
    /\ (forall r, In r db1 -> row_pk r = k -> row_slug r = Some s).
Proof.
  intros Hw. destruct (slug_written_writes kw Hw) as [Hne Hws].
  unfold save. rewrite slugify_eq. simpl.
  set (s := slug_of_ascii (filter is_ascii (nfkd (title o)))).
  intros H. apply Model_save_result in H as [Ht [_ [_ H]]]. simpl in Ht.
  destruct H as [[He _]|[[k [Hk [_ [Hp ->]]]]|[k [Hk [_ [Hp ->]]]]]].
  - contradiction.
  - exists k, s. repeat split; try assumption; try reflexivity.
    + now apply has_pk_app_new.
    + intros r Hin Hr. apply in_app_or in Hin as [Hin|[<-|[]]]; [|reflexivity].
      now destruct (has_pk_false_row k db r Hp Hin).
  - exists k, s. repeat split; try assumption; try reflexivity.
    + now rewrite has_pk_update.
    + intros r Hin Hr. apply in_map_iff in Hin as [r0 [<- _]].
      rewrite update_row_pk in Hr. unfold update_row.
      rewrite (proj2 (N.eqb_eq _ _) Hr). cbn [row_slug slug].
      now rewrite Hws.
Qed.

(** A further call of [save], with any arguments, on a record of that key
    and title: when it returns, the rows of the key still have the slug. *)
Lemma save_again_keeps_slug (nfkd : str -> str) kw o db o' db' (k : N) (s : str) :
  pk o = Some k ->
  slugify nfkd (title o) = Ok s ->
  has_pk k db = true ->
  (forall r, In r db -> row_pk r = k -> row_slug r = Some s) ->
  save nfkd kw o db = Ok (o', db') ->
  pk o' = Some k /\ has_pk k db' = true
  /\ (forall r, In r db' -> row_pk r = k -> row_slug r = Some s).
Proof.
  intros Hk Hs Hp Hall. unfold save. rewrite Hs. simpl.
  intros H. apply Model_save_result in H as [_ [_ [_ H]]]. simpl in H.
  destruct H as [[_ [Ho ->]]|[[k' [Ho [Hself [Hp' ->]]]]|[k' [Ho [Hself [_ ->]]]]]].
  - rewrite Ho, Hk. now repeat split.
  - destruct Hself as [Hself|Hself]; rewrite Hk in Hself; [discriminate|].
    injection Hself as <-. congruence.
  - rewrite Hk in Hself. injection Hself as <-.
    split; [assumption|]. split; [now rewrite has_pk_update|].
    intros r Hin Hr. apply in_map_iff in Hin as [r0 [<- Hin0]].
    rewrite update_row_pk in Hr. unfold update_row.
    rewrite (proj2 (N.eqb_eq _ _) Hr). cbn [row_slug slug].
    destruct (writes (update_fields kw) f_slug); [reflexivity|].
    now apply Hall.
Qed.

(** C5, as the code has it.  A call of [save] that returns and writes the
    slug column (no [update_fields], or one naming [slug]) stores, under
    the record's key, the slug [slugify] derives from the title; when the
    returned record is saved again, with any arguments, and that call
    returns too, the same slug is stored under the same key. *)
Theorem save_twice_same_slug (nfkd : str -> str) :
  (forall kw o db o1 db1,
      slug_written kw = true ->
      save nfkd kw o db = Ok (o1, db1) ->
      exists k s,
        slugify nfkd (title o) = Ok s
        /\ pk o1 = Some k /\ title o1 = title o
        /\ option_map row_slug (stored k db1) = Some (Some s))
  /\ (forall kw1 kw2 o db o1 db1 o2 db2,
        slug_written kw1 = true ->
        save nfkd kw1 o db = Ok (o1, db1) ->
        save nfkd kw2 o1 db1 = Ok (o2, db2) ->
        exists k s,
          slugify nfkd (title o) = Ok s
          /\ pk o1 = Some k /\ pk o2 = Some k
          /\ option_map row_slug (stored k db1) = Some (Some s)
          /\ option_map row_slug (stored k db2) = Some (Some s)).
Proof.
  split.
  - intros kw o db o1 db1 Hw H1.
    destruct (save_writes_slug nfkd kw o db o1 db1 Hw H1)
      as [k [s [Hs [Hk [Ht [Hp Hall]]]]]].
    exists k, s. repeat split; try assumption. now apply stored_of_keyed.
  - intros kw1 kw2 o db o1 db1 o2 db2 Hw H1 H2.
    destruct (save_writes_slug nfkd kw1 o db o1 db1 Hw H1)
      as [k [s [Hs [Hk [Ht [Hp Hall]]]]]].
    assert (Hs1 : slugify nfkd (title o1) = Ok s) by now rewrite Ht.
    destruct (save_again_keeps_slug nfkd kw2 o1 db1 o2 db2 k s
                Hk Hs1 Hp Hall H2) as [Hk2 [Hp2 Hall2]].
    exists k, s. repeat split; try assumption; now apply stored_of_keyed.
Qed.

Lemma save_twice_same_slug_witness :
  exists k s,
    slugify nfkd_ascii (lit "Test") = Ok s
    /\ pk (mkSnippet (Some 1) (lit "Test") (Some (lit "test")) (lit "X")) = Some k
    /\ pk (mkSnippet (Some 1) (lit "Test") (Some (lit "test")) (lit "X")) = Some k
    /\ option_map row_slug
         (stored k [mkRow 1 (lit "Test") (Some (lit "test")) (lit "X")])
       = Some (Some s)
    /\ option_map row_slug
         (stored k [mkRow 1 (lit "Test") (Some (lit "test")) (lit "X")])
       = Some (Some s).
Proof.
  apply (proj2 (save_twice_same_slug nfkd_ascii)
           no_kwargs (mkKwargs false false (Some [f_body]))
           (mkSnippet None (lit "Test") None (lit "X")) []);
    reflexivity.
Defined.

(** C5, as the specification words it, fails.  Saving a new Snippet
    titled [A] with [force_update=True] raises [ValueError], since the
    record has no key to update: the title has a slug, and no slug is
    stored. *)
Lemma forced_update_of_new_snippet_raises :
  (forall nfkd,
      save nfkd (mkKwargs false true None)
           (mkSnippet None (lit "A") None (lit "x")) []
      = Raise ValueError)
  /\ (forall nfkd, ascii_fixed nfkd -> slugify nfkd (lit "A") = Ok (lit "a")).
Proof.
  split.
  - intros nfkd. unfold save. rewrite slugify_eq. reflexivity.
  - intros nfkd H. now rewrite (slugify_ascii nfkd (lit "A") H eq_refl).
Qed.

(* ================================================================== *)
(** ** Lemmas on the routes                                            *)
(* ================================================================== *)

Lemma strip_prefix_Some (p s r : str) : strip_prefix p s = Some r -> s = p ++ r.
Proof.
  revert s. induction p as [|x p IH]; intros [|y s]; simpl; try congruence.
  destruct (x =? y) eqn:E; [|discriminate].
  apply N.eqb_eq in E. subst y. intros H. now rewrite (IH s H).
Qed.

Lemma first_split_Some {A : Type} (f : nat -> option A) (k : nat) (a : A) :
  first_split f k = Some a -> exists j, (0 < j <= k)%nat /\ f j = Some a.
Proof.
  induction k as [|k IH]; simpl; [discriminate|].
  destruct (f (S k)) as [b|] eqn:E.
  - intros H. injection H as <-. exists (S k). split; [lia|assumption].
  - intros H. destruct (IH H) as [j [Hj Hf]]. exists j. split; [lia|assumption].
Qed.

Lemma class_prefix_length (cls : N -> bool) (s : str) :
  (class_prefix cls s <= List.length s)%nat.
Proof.
  induction s as [|c s IH]; simpl; [lia|]. destruct (cls c); simpl; lia.
Qed.

(** A path the detail route matches is a segment that is not empty,
    followed by one slash; the segment is the [slug] argument. *)
Lemma detail_route_match (p : str) (kw : list (str * str)) :
  match_route detail_route p = Some kw ->
  exists seg, p = seg ++ [SLASH] /\ seg <> [] /\ kw = [(lit "slug", seg)].
Proof.
  unfold detail_route. cbn [match_route]. intros H.
  apply first_split_Some in H as [j [Hj H]].
  destruct (strip_prefix (lit "/") (skipn j p)) as [rest|] eqn:E; [|discriminate].
  destruct rest as [|x rest]; [|discriminate]. injection H as <-.
  apply strip_prefix_Some in E. exists (firstn j p). split; [|split].
  - rewrite <- (firstn_skipn j p) at 1. now rewrite E.
  - pose proof (class_prefix_length (converter_class SlugConverter) p) as Hl.
    destruct j as [|j]; [lia|]. destruct p as [|c p]; simpl in *; [lia|discriminate].
  - reflexivity.
Qed.

Lemma about_route_match (p : str) (kw : list (str * str)) :
  match_route about_route p = Some kw -> p = lit "about/".
Proof.
  unfold about_route. cbn [match_route]. intros H.
  destruct (strip_prefix (lit "about/") p) as [rest|] eqn:E; [|discriminate].
  destruct rest as [|x rest]; [|discriminate].
  apply strip_prefix_Some in E. now rewrite app_nil_r in E.
Qed.

(** Whatever path resolves, resolves to the detail view: the route of
    [about] comes second and the detail route matches its only path. *)
Lemma resolve_slash (s : str) : resolve (SLASH :: s) = resolve_in urlpatterns s.
Proof. reflexivity. Qed.

Lemma resolve_Ok_slash (p : str) (m : ResolverMatch) :
  resolve p = Ok m -> exists s, p = SLASH :: s.
Proof.
  unfold resolve. destruct (strip_prefix root_prefix p) as [rest|] eqn:E;
    [|discriminate].
  apply strip_prefix_Some in E. intros _. now exists rest.
Qed.

Lemma resolve_reaches_detail_only (p : str) (m : ResolverMatch) :
  resolve p = Ok m ->
  func m = view_snippet_detail
  /\ exists seg, seg <> [] /\ p = SLASH :: seg ++ [SLASH]
                 /\ kwargs m = [(lit "slug", seg)].
Proof.
  intros H. destruct (resolve_Ok_slash p m H) as [s ->].
  rewrite resolve_slash in H. revert H.
  unfold urlpatterns. cbn [resolve_in route callback].
  destruct (match_route detail_route s) as [kw|] eqn:E.
  - intros H. injection H as <-. split; [reflexivity|].
    destruct (detail_route_match s kw E) as [seg [Hp [Hne Hkw]]].
    exists seg. split; [assumption|]. split; [now rewrite Hp|assumption].
  - destruct (match_route about_route s) as [kw|] eqn:E2; [|discriminate].
    apply about_route_match in E2. subst s. discriminate E.
Qed.

Lemma no_slash_unroutable (s : str) :
  ~ In SLASH s ->
  match_route detail_route s = None /\ resolve (SLASH :: s) = Raise Resolver404.
Proof.
  intros Hs.
  assert (H1 : match_route detail_route s = None).
  { destruct (match_route detail_route s) as [kw|] eqn:E; [|reflexivity].
    destruct (detail_route_match s kw E) as [seg [Hp _]].
    exfalso. apply Hs. rewrite Hp. apply in_or_app. right. now left. }
  split; [assumption|].
  destruct (resolve (SLASH :: s)) as [m|e] eqn:E.
  - destruct (resolve_reaches_detail_only _ _ E) as [_ [seg [_ [Hp _]]]].
    injection Hp as ->. exfalso. apply Hs. apply in_or_app. right. now left.
  - revert E. rewrite resolve_slash.
    unfold urlpatterns. cbn [resolve_in route callback]. rewrite H1.
    destruct (match_route about_route s); congruence.
Qed.

Lemma slug_has_no_slash (s : str) : forallb slug_char s = true -> ~ In SLASH s.
Proof.
  intros H Hin. rewrite forallb_forall in H. specialize (H SLASH Hin).
  discriminate H.
Qed.

(* ================================================================== *)
(** ** The route table                                                 *)
(* ================================================================== *)

(** C1 on the code: the path [/about/] resolves to the detail view with
    the slug [about], since the detail route stands first and matches it;
    no path at all resolves to the [about] view; on an empty table the
    request is answered 404, where the [about] view answers 200 with the
    about page. *)
Theorem about_path_reaches_detail :
  resolve (lit "/about/")
  = Ok {| func := view_snippet_detail; kwargs := [(lit "slug", lit "about")] |}
  /\ (forall p kw, resolve p <> Ok {| func := view_about; kwargs := kw |})
  /\ (forall meth db,
        get_response (mkRequest meth (lit "/about/")) db
        = convert_exception_to_response
            (snippet_detail (mkRequest meth (lit "/about/")) (lit "about") db))
  /\ get_response (mkRequest (lit "GET") (lit "/about/")) []
     = {| status_code := 404; content := lit "Not Found" |}
  /\ about (mkRequest (lit "GET") (lit "/about/"))
     = Ok {| status_code := 200; content := lit "about page" |}.
Proof.
  split; [reflexivity|]. split; [|repeat split].
  intros p kw H. apply resolve_reaches_detail_only in H as [H _].
  discriminate H.
Qed.

(* ================================================================== *)
(** ** Lemmas on the stored slugs and the sitemap of Snippets          *)
(* ================================================================== *)

(** The table a call of [Model.save] leaves. *)
Lemma Model_save_shape kw self db o' db' :
  Model_save kw self db = Ok (o', db') ->
  db' = db
  \/ (exists k, db' = db ++ [row_of k self])
  \/ (exists k, db' = map (update_row (update_fields kw) k self) db).
Proof.
  unfold Model_save, save_table.
  destruct (force_insert kw), (force_update kw),
    (update_fields kw) as [[|f fs]|], (pk self) as [k|]; simpl;
    try discriminate;
    try (destruct (has_pk k db)); try discriminate;
    intros H; injection H as <- <-; eauto.
Qed.

Lemma any_saves_derived (nfkd : str -> str) (db : Table) :
  any_saves nfkd db -> Forall (row_derived nfkd) db.
Proof.
  intros H. induction H as [|kw o db o' db' _ IH Hs]; [constructor|].
  revert Hs. unfold save. rewrite slugify_eq. simpl. intros Hs.
  set (s := slug_of_ascii (filter is_ascii (nfkd (title o)))) in *.
  assert (Hd : forall r, row_slug r = Some s -> row_derived nfkd r).
  { intros r Hr. exists (title o), s. split; [apply slugify_eq|assumption]. }
  apply Model_save_shape in Hs as [->|[[k ->]|[k ->]]].
  - assumption.
  - apply Forall_app. split; [assumption|]. constructor; [|constructor].
    now apply Hd.
  - apply Forall_map. eapply Forall_impl; [|exact IH].
    intros r Hr. unfold update_row. destruct (row_pk r =? k); [|assumption].
    destruct (writes (update_fields kw) f_slug) eqn:W.
    + apply Hd. reflexivity.
    + destruct Hr as [t [s' [Ht Hr]]]. exists t, s'. split; assumption.
Qed.

Lemma get_urls_snippets (db : Table) :
  get_urls SnippetSitemap db
  = Ok (map (fun r => get_absolute_url (instance_of r)) db).
Proof.
  unfold get_urls, objects_all. simpl.
  induction db as [|r db IH]; simpl; [reflexivity|]. now rewrite IH.
Qed.

(* ================================================================== *)
(** ** The URLs of Snippets and the detail route                       *)
(* ================================================================== *)

(** C9.  [get_absolute_url] is a slash followed by the slug and nothing
    more; every path that resolves to the detail view ends with a slash
    after a segment that is not empty; and in a table built by calls of
    [save], the sitemap of Snippets lists, for each row, the slash and the
    row's slug, a path with no slash after the first, which the detail
    route does not match and which no route resolves. *)
Theorem snippet_urls_miss_detail_route (nfkd : str -> str) :
  (forall o, get_absolute_url o = SLASH :: format_slug (slug o))
  /\ (forall p m,
        resolve p = Ok m -> func m = view_snippet_detail ->
        exists seg, seg <> [] /\ p = SLASH :: seg ++ [SLASH])
  /\ (forall db,
        any_saves nfkd db ->
        exists us,
          get_urls SnippetSitemap db = Ok us
          /\ Forall2 (fun r u =>
                        exists s, row_slug r = Some s /\ u = SLASH :: s
                                  /\ ~ In SLASH s
                                  /\ match_route detail_route s = None
                                  /\ resolve u = Raise Resolver404)
                     db us).
Proof.
  split; [reflexivity|]. split.
  - intros p m H _. destruct (resolve_reaches_detail_only p m H)
      as [_ [seg [Hne [Hp _]]]]. now exists seg.
  - intros db H. apply any_saves_derived in H.
    exists (map (fun r => get_absolute_url (instance_of r)) db).
    split; [apply get_urls_snippets|].
    induction H as [|r db [t [s [Ht Hr]]] _ IH]; simpl; constructor;
      [|exact IH].
    exists s. rewrite slugify_eq in Ht. injection Ht as Ht.
    pose proof (slug_of_ascii_alphabet (filter is_ascii (nfkd t))) as Ha.
    rewrite Ht in Ha. pose proof (slug_has_no_slash s Ha) as Hn.
    destruct (no_slash_unroutable s Hn) as [H1 H2].
    unfold get_absolute_url, instance_of. simpl. rewrite Hr. simpl.
    repeat split; assumption.
Qed.

Lemma snippet_urls_miss_detail_route_witness :
  exists us,
    get_urls SnippetSitemap [mkRow 1 (lit "Hello World") (Some (lit "hello-world")) (lit "X")]
    = Ok us
    /\ Forall2 (fun r u =>
                  exists s, row_slug r = Some s /\ u = SLASH :: s
                            /\ ~ In SLASH s
                            /\ match_route detail_route s = None
                            /\ resolve u = Raise Resolver404)
               [mkRow 1 (lit "Hello World") (Some (lit "hello-world")) (lit "X")] us.
Proof.
  apply (proj2 (proj2 (snippet_urls_miss_detail_route nfkd_ascii))).
  apply (any_saves_step nfkd_ascii no_kwargs
           (mkSnippet None (lit "Hello World") None (lit "X")) []
           (mkSnippet (Some 1) (lit "Hello World") (Some (lit "hello-world")) (lit "X"))).
  - apply any_saves_nil.
  - reflexivity.
Defined.

(* ================================================================== *)
(** ** Lemmas on the lookup by slug                                    *)
(* ================================================================== *)

Lemma slug_is_row (s : str) (r : Row) :
  slug_is s (instance_of r) = true <-> row_slug r = Some s.
Proof.
  unfold slug_is, instance_of. simpl. destruct (row_slug r) as [x|].
  - rewrite str_eqb_eq. split; congruence.
  - split; discriminate.
Qed.

(** No row has the slug: the filter of the lookup is empty. *)
Lemma lookup_empty_iff (s : str) (db : Table) :
  filter (slug_is s) (objects_all db) = []
  <-> ~ exists r, In r db /\ row_slug r = Some s.
Proof.
  unfold objects_all. induction db as [|x db IH]; simpl.
  - split; [intros _ [r [[] _]] | reflexivity].
  - destruct (slug_is s (instance_of x)) eqn:E.
    + split; [discriminate|]. intros H. exfalso. apply H. exists x.
      split; [now left | now apply slug_is_row].
    + rewrite IH. split.
      * intros H [r [[->|Hr] Hs]].
        -- apply slug_is_row in Hs. congruence.
        -- apply H. now exists r.
      * intros H [r [Hr Hs]]. apply H. exists r. split; [now right|assumption].
Qed.

(** One row, and no other, has the slug: the filter holds that row. *)
Lemma lookup_unique (s : str) (db : Table) (i : nat) (r : Row) :
  nth_error db i = Some r -> row_slug r = Some s ->
  (forall j r', nth_error db j = Some r' -> row_slug r' = Some s -> j = i) ->
  filter (slug_is s) (objects_all db) = [instance_of r].
Proof.
  revert i. induction db as [|x db IH]; intros i Hi Hs Hu.
  - destruct i; discriminate.
  - destruct i as [|i]; simpl in Hi.
    + injection Hi as ->. unfold objects_all. simpl.
      rewrite (proj2 (slug_is_row s r) Hs). f_equal.
      apply lookup_empty_iff. intros [r' [Hr' Hs']].
      apply In_nth_error in Hr' as [j Hj].
      specialize (Hu (S j) r' Hj Hs'). discriminate.
    + unfold objects_all. simpl.
      destruct (slug_is s (instance_of x)) eqn:E.
      * apply slug_is_row in E. specialize (Hu O x eq_refl E). discriminate.
      * apply (IH i Hi Hs). intros j r' Hj Hs'.
        specialize (Hu (S j) r' Hj Hs'). now injection Hu.
Qed.

(** Two rows at different places have the slug: the filter holds at
    least two records. *)
Lemma lookup_two (s : str) (db : Table) (i j : nat) (r1 r2 : Row) :
  (i < j)%nat ->
  nth_error db i = Some r1 -> nth_error db j = Some r2 ->
  row_slug r1 = Some s -> row_slug r2 = Some s ->
  exists a b rest, filter (slug_is s) (objects_all db) = a :: b :: rest.
Proof.
  revert i j. induction db as [|x db IH]; intros i j Hij H1 H2 Hs1 Hs2.
  - destruct i; discriminate.
  - unfold objects_all. simpl. destruct j as [|j]; [lia|]. simpl in H2.
    destruct i as [|i]; simpl in H1.
    + injection H1 as ->. rewrite (proj2 (slug_is_row s r1) Hs1).
      destruct (filter (slug_is s) (map instance_of db)) as [|b rest] eqn:E.
      * exfalso. apply (proj1 (lookup_empty_iff s db) E).
        exists r2. split; [now apply nth_error_In with j|assumption].
      * now exists (instance_of r1), b, rest.
    + destruct (IH i j ltac:(lia) H1 H2 Hs1 Hs2) as [a [b [rest E]]].
      unfold objects_all in E. rewrite E.
      destruct (slug_is s (instance_of x)); eauto.
Qed.

Lemma snippet_detail_cases (request : HttpRequest) (s : str) (db : Table) :
  snippet_detail request s db
  = match filter (slug_is s) (objects_all db) with
    | [] => Raise Http404
    | [_] => Ok (HttpResponse_ (lit "the detailview for slug of " ++ s))
    | _ :: _ :: _ => Raise MultipleObjectsReturned
    end.
Proof.
  unfold snippet_detail, get_object_or_404, QuerySet_get.
  destruct (filter (slug_is s) (objects_all db)) as [|a [|b rest]]; reflexivity.
Qed.

(* ================================================================== *)
(** ** [snippet_detail]                                                *)
(* ================================================================== *)

(** C4.  The detail view raises [Http404], and the handler answers 404,
    exactly when no stored Snippet has the slug; when one stored Snippet
    and no other has it, the view returns status 200 with the body
    [the detailview for slug of ] followed by the slug. *)
Theorem detail_404_iff_absent (request : HttpRequest) (s : str) (db : Table) :
  (snippet_detail request s db = Raise Http404
   <-> ~ exists r, In r db /\ row_slug r = Some s)
  /\ (status_code (convert_exception_to_response (snippet_detail request s db)) = 404
      <-> ~ exists r, In r db /\ row_slug r = Some s)
  /\ (forall i r,
        nth_error db i = Some r -> row_slug r = Some s ->
        (forall j r', nth_error db j = Some r' -> row_slug r' = Some s -> j = i) ->
        snippet_detail request s db
        = Ok {| status_code := 200;
                content := lit "the detailview for slug of " ++ s |}).
Proof.
  rewrite snippet_detail_cases. rewrite <- lookup_empty_iff.
  split; [|split].
  - destruct (filter (slug_is s) (objects_all db)) as [|a [|b rest]];
      split; congruence.
  - destruct (filter (slug_is s) (objects_all db)) as [|a [|b rest]];
      simpl; split; congruence.
  - intros i r Hi Hs Hu. now rewrite (lookup_unique s db i r Hi Hs Hu).
Qed.

Lemma detail_404_iff_absent_witness :
  snippet_detail (mkRequest (lit "GET") (lit "/test/")) (lit "test")
                 [mkRow 1 (lit "Test") (Some (lit "test")) (lit "X")]
  = Ok {| status_code := 200;
          content := lit "the detailview for slug of " ++ lit "test" |}.
Proof.
  apply (proj2 (proj2 (detail_404_iff_absent
                         (mkRequest (lit "GET") (lit "/test/")) (lit "test")
                         [mkRow 1 (lit "Test") (Some (lit "test")) (lit "X")]))
           O (mkRow 1 (lit "Test") (Some (lit "test")) (lit "X"))).
  - reflexivity.
  - reflexivity.
  - intros [|[|j]] r' Hj Hs; [reflexivity | discriminate Hj | discriminate Hj].
Defined.

(** C10.  When two stored Snippets have the slug, the lookup raises
    [MultipleObjectsReturned]; [get_object_or_404] catches [DoesNotExist]
    only, so the view raises it too: no record is picked, the outcome is
    not the not-found signal, and the handler answers 500, not 404. *)
Theorem detail_multiple_matches (request : HttpRequest) (s : str) (db : Table)
        (i j : nat) (r1 r2 : Row) :
  i <> j ->
  nth_error db i = Some r1 -> nth_error db j = Some r2 ->
  row_slug r1 = Some s -> row_slug r2 = Some s ->
  QuerySet_get s (objects_all db) = Raise MultipleObjectsReturned
  /\ get_object_or_404 s db = Raise MultipleObjectsReturned
  /\ snippet_detail request s db = Raise MultipleObjectsReturned
  /\ snippet_detail request s db <> Raise Http404
  /\ (forall resp, snippet_detail request s db <> Ok resp)
  /\ status_code (convert_exception_to_response (snippet_detail request s db)) = 500.
Proof.
  intros Hij H1 H2 Hs1 Hs2.
  assert (E : exists a b rest, filter (slug_is s) (objects_all db) = a :: b :: rest).
  { assert (Hord : (i < j \/ j < i)%nat) by lia. destruct Hord as [Hlt|Hgt].
    - exact (lookup_two s db i j r1 r2 Hlt H1 H2 Hs1 Hs2).
    - exact (lookup_two s db j i r2 r1 Hgt H2 H1 Hs2 Hs1). }
  destruct E as [a [b [rest E]]].
  rewrite snippet_detail_cases. unfold get_object_or_404, QuerySet_get.
  rewrite E. simpl. repeat split; congruence.
Qed.

Lemma detail_multiple_matches_witness :
  snippet_detail (mkRequest (lit "GET") (lit "/a/")) (lit "a")
                 [mkRow 1 (lit "A") (Some (lit "a")) (lit "x");
                  mkRow 2 (lit "a") (Some (lit "a")) (lit "y")]
  = Raise MultipleObjectsReturned.
Proof.
  apply (detail_multiple_matches
           (mkRequest (lit "GET") (lit "/a/")) (lit "a")
           [mkRow 1 (lit "A") (Some (lit "a")) (lit "x");
            mkRow 2 (lit "a") (Some (lit "a")) (lit "y")]
           0%nat 1%nat
           (mkRow 1 (lit "A") (Some (lit "a")) (lit "x"))
           (mkRow 2 (lit "a") (Some (lit "a")) (lit "y")));
    [discriminate | reflexivity | reflexivity | reflexivity | reflexivity].
Defined.

(* ================================================================== *)
(** ** The sitemap                                                     *)
(* ================================================================== *)

(** C7.  With no Snippet stored, the two sitemaps together list one URL:
    the path [/about/], which [reverse] gives the route named [about]. *)
Theorem sitemap_of_empty_table :
  sitemap_urls [] = Ok [lit "/about/"]
  /\ get_urls StaticViewSitemap [] = Ok [lit "/about/"]
  /\ get_urls SnippetSitemap [] = Ok []
  /\ reverse (lit "about") = Ok (lit "/about/").
Proof. repeat split. Qed.

(* ================================================================== *)
(** ** Lemmas on slugs as input: the alphabet and fixed points         *)
(* ================================================================== *)

Lemma slug_char_cases (c : N) :
  slug_char c = true ->
  (97 <= c <= 122) \/ (48 <= c <= 57) \/ c = 45 \/ c = 95.
Proof.
  unfold slug_char, is_lower, is_digit, in_range, HYPHEN, UNDERSCORE.
  destruct (N.leb_spec 97 c), (N.leb_spec c 122), (N.leb_spec 48 c),
    (N.leb_spec c 57), (N.eqb_spec c 45), (N.eqb_spec c 95); simpl;
    intros Hsc; try discriminate Hsc; lia.
Qed.

Lemma slug_char_ascii (c : N) : slug_char c = true -> is_ascii c = true.
Proof.
  intros H. apply slug_char_cases in H. unfold is_ascii. apply N.ltb_lt. lia.
Qed.

Lemma slug_char_not_upper (c : N) : slug_char c = true -> is_upper c = false.
Proof.
  intros H. apply slug_char_cases in H. unfold is_upper, in_range.
  destruct (N.leb_spec 65 c), (N.leb_spec c 90); simpl; try reflexivity; lia.
Qed.

Lemma slug_char_not_space (c : N) : slug_char c = true -> re_s c = false.
Proof.
  intros H. apply slug_char_cases in H. unfold re_s, isspace, in_range.
  cmp.
Qed.

Lemma slug_char_word (c : N) :
  slug_char c = true -> (re_w c || re_s c || (c =? HYPHEN)) = true.
Proof.
  unfold slug_char, re_w.
  destruct (is_upper c), (is_lower c), (is_digit c), (c =? UNDERSCORE),
    (c =? HYPHEN), (re_s c); simpl; congruence.
Qed.

Lemma slug_char_converter (c : N) :
  slug_char c = true -> converter_class SlugConverter c = true.
Proof.
  unfold slug_char, converter_class.
  destruct (is_upper c), (is_lower c), (is_digit c), (c =? UNDERSCORE),
    (c =? HYPHEN); simpl; congruence.
Qed.

Lemma forallb_impl (p q : N -> bool) (s : str) :
  (forall c, p c = true -> q c = true) ->
  forallb p s = true -> forallb q s = true.
Proof.
  intros Hpq H. apply forallb_forall. intros c Hc.
  rewrite forallb_forall in H. auto.
Qed.

Lemma filter_all (p : N -> bool) (s : str) :
  forallb p s = true -> filter p s = s.
Proof.
  induction s as [|c s IH]; simpl; [reflexivity|].
  intros H. apply andb_true_iff in H as [Hc Hs]. rewrite Hc. now rewrite IH.
Qed.

Lemma lower_slug (s : str) : forallb slug_char s = true -> lower s = s.
Proof.
  unfold lower. induction s as [|c s IH]; simpl; [reflexivity|].
  intros H. apply andb_true_iff in H as [Hc Hs].
  rewrite (IH Hs). unfold lower_char. now rewrite (slug_char_not_upper c Hc).
Qed.

Lemma double_hyphen_tail (c : N) (s : str) :
  double_hyphen (c :: s) = false -> double_hyphen s = false.
Proof.
  destruct s as [|d s]; [reflexivity|].
  change (((c =? HYPHEN) && (d =? HYPHEN)) || double_hyphen (d :: s) = false
          -> double_hyphen (d :: s) = false).
  intros H. now apply orb_false_iff in H as [_ H].
Qed.

(** The second substitution of [slugify] leaves a text of slug characters
    with no two adjacent hyphens as it is. *)
Lemma sub_runs_slug (s : str) :
  forallb slug_char s = true -> double_hyphen s = false ->
  sub_runs (fun c => (c =? HYPHEN) || re_s c) [HYPHEN] false s = s
  /\ (starts_with HYPHEN s = false ->
      sub_runs (fun c => (c =? HYPHEN) || re_s c) [HYPHEN] true s = s).
Proof.
  induction s as [|c s IH]; intros Ha Hd; [now split|].
  simpl in Ha. apply andb_true_iff in Ha as [Hc Ha].
  pose proof (double_hyphen_tail c s Hd) as Hd'.
  destruct (IH Ha Hd') as [IH1 IH2].
  cbn [sub_runs]. rewrite (slug_char_not_space c Hc), orb_false_r.
  destruct (c =? HYPHEN) eqn:E.
  - apply N.eqb_eq in E. subst c. split.
    + simpl. f_equal. apply IH2. destruct s as [|d s]; [reflexivity|].
      revert Hd.
      change ((true && (d =? HYPHEN)) || double_hyphen (d :: s) = false
              -> (d =? HYPHEN) = false).
      simpl. intros H. now apply orb_false_iff in H as [H _].
    + simpl. discriminate.
  - split; [|intros _]; now rewrite IH1.
Qed.

Lemma lstrip_id (chars s : str) :
  (forall x, mem x chars = true -> starts_with x s = false) ->
  lstrip chars s = s.
Proof.
  destruct s as [|c s]; [reflexivity|]. simpl. intros H.
  destruct (mem c chars) eqn:E; [|reflexivity].
  specialize (H c E). now rewrite N.eqb_refl in H.
Qed.

Lemma rstrip_id (chars s : str) :
  (forall x, mem x chars = true -> ends_with x s = false) ->
  rstrip chars s = s.
Proof.
  intros H. unfold rstrip. rewrite lstrip_id; [apply rev_involutive|exact H].
Qed.

Lemma mem_hyphen_underscore (x : N) :
  mem x [HYPHEN; UNDERSCORE] = true -> x = HYPHEN \/ x = UNDERSCORE.
Proof.
  unfold mem. simpl. rewrite orb_false_r. intros H.
  apply orb_true_iff in H as [H|H]; apply N.eqb_eq in H; auto.
Qed.

(** A text with the shape of a slug is its own slug. *)
Lemma slug_of_ascii_fixed (s : str) :
  forallb slug_char s = true ->
  double_hyphen s = false ->
  starts_with HYPHEN s = false -> ends_with HYPHEN s = false ->
  starts_with UNDERSCORE s = false -> ends_with UNDERSCORE s = false ->
  slug_of_ascii s = s.
Proof.
  intros Ha Hd H1 H2 H3 H4. unfold slug_of_ascii.
  rewrite (lower_slug s Ha). rewrite re_sub_class_none.
  - unfold re_sub_class_plus. rewrite (proj1 (sub_runs_slug s Ha Hd)).
    unfold strip. rewrite lstrip_id.
    + apply rstrip_id. intros x Hx.
      destruct (mem_hyphen_underscore x Hx) as [->| ->]; assumption.
    + intros x Hx.
      destruct (mem_hyphen_underscore x Hx) as [->| ->]; assumption.
  - apply (forallb_impl slug_char); [|exact Ha].
    intros c Hc. now rewrite (slug_char_word c Hc).
Qed.

Lemma slugify_of_slug (nfkd : str -> str) (t : str) :
  ascii_fixed nfkd ->
  slugify nfkd (slug_of_ascii (filter is_ascii (nfkd t)))
  = Ok (slug_of_ascii (filter is_ascii (nfkd t))).
Proof.
  intros H. set (s := slug_of_ascii (filter is_ascii (nfkd t))).
  pose proof (slug_of_ascii_alphabet (filter is_ascii (nfkd t))) as Ha.
  destruct (slug_of_ascii_hyphens (filter is_ascii (nfkd t)))
    as [Hd [H1 [H2 [H3 H4]]]].
  fold s in Ha, Hd, H1, H2, H3, H4.
  assert (Hs : forallb is_ascii s = true)
    by (apply (forallb_impl slug_char); [apply slug_char_ascii|exact Ha]).
  rewrite slugify_eq, (H s Hs), (filter_all is_ascii s Hs). f_equal.
  now apply slug_of_ascii_fixed.
Qed.

(* ================================================================== *)
(** ** Lemmas on the paths the detail route accepts                    *)
(* ================================================================== *)

Lemma firstn_length_app {A : Type} (a b : list A) :
  firstn (List.length a) (a ++ b) = a.
Proof. induction a as [|x a IH]; simpl; [now destruct b | now rewrite IH]. Qed.

Lemma skipn_length_app {A : Type} (a b : list A) :
  skipn (List.length a) (a ++ b) = b.
Proof. induction a as [|x a IH]; simpl; [reflexivity | exact IH]. Qed.

Lemma class_prefix_app (cls : N -> bool) (seg rest : str) (x : N) :
  forallb cls seg = true -> cls x = false ->
  class_prefix cls (seg ++ x :: rest) = List.length seg.
Proof.
  intros Hs Hx. induction seg as [|c seg IH]; simpl in *; [now rewrite Hx|].
  apply andb_true_iff in Hs as [Hc Hs]. rewrite Hc. now rewrite IH.
Qed.

Lemma class_prefix_firstn (cls : N -> bool) (p : str) (j : nat) :
  (j <= class_prefix cls p)%nat -> forallb cls (firstn j p) = true.
Proof.
  revert j. induction p as [|c p IH]; intros [|j] Hj; simpl in *;
    try reflexivity; try lia.
  destruct (cls c) eqn:E; [|lia]. simpl. apply IH. lia.
Qed.

Lemma detail_route_accepts (seg : str) :
  seg <> [] -> forallb (converter_class SlugConverter) seg = true ->
  match_route detail_route (seg ++ [SLASH]) = Some [(lit "slug", seg)].
Proof.
  intros Hne Hs. unfold detail_route. cbn [match_route].
  rewrite (class_prefix_app _ seg [] SLASH Hs eq_refl).
  pose proof (firstn_length_app seg [SLASH]) as Hf.
  pose proof (skipn_length_app seg [SLASH]) as Hk.
  destruct (List.length seg) as [|n] eqn:El.
  - destruct seg; [contradiction|discriminate].
  - cbn [first_split]. rewrite Hk, Hf. reflexivity.
Qed.

Lemma detail_route_match_class (p : str) (kw : list (str * str)) :
  match_route detail_route p = Some kw ->
  exists seg, p = seg ++ [SLASH] /\ seg <> []
              /\ forallb (converter_class SlugConverter) seg = true
              /\ kw = [(lit "slug", seg)].
Proof.
  intros H. destruct (detail_route_match p kw H) as [seg [Hp [Hne Hkw]]].
  exists seg. repeat split; try assumption.
  revert H. unfold detail_route. cbn [match_route]. intros H.
  apply first_split_Some in H as [j [Hj H]].
  destruct (strip_prefix (lit "/") (skipn j p)) as [rest|] eqn:E; [|discriminate].
  destruct rest as [|x rest]; [|discriminate]. injection H as H.
  rewrite Hkw in H. injection H as <-.
  apply class_prefix_firstn. lia.
Qed.

(** The paths that resolve: a slash, a segment of [[-a-zA-Z0-9_]] that is
    not empty, a slash; they resolve to the detail view with the segment
    as [slug]. *)
Lemma resolve_Ok_iff (p : str) (m : ResolverMatch) :
  resolve p = Ok m
  <-> exists seg,
        seg <> [] /\ forallb (converter_class SlugConverter) seg = true
        /\ p = SLASH :: seg ++ [SLASH]
        /\ m = {| func := view_snippet_detail; kwargs := [(lit "slug", seg)] |}.
Proof.
  split.
  - intros H. destruct (resolve_Ok_slash p m H) as [s ->].
    rewrite resolve_slash in H. revert H.
    unfold urlpatterns. cbn [resolve_in route callback].
    destruct (match_route detail_route s) as [kw|] eqn:E.
    + intros H. injection H as <-.
      destruct (detail_route_match_class s kw E) as [seg [-> [Hne [Hc ->]]]].
      exists seg. repeat split; assumption.
    + destruct (match_route about_route s) as [kw|] eqn:E2; [|discriminate].
      apply about_route_match in E2. subst s. discriminate E.
  - intros [seg [Hne [Hc [-> ->]]]]. rewrite resolve_slash.
    unfold urlpatterns. cbn [resolve_in route callback].
    now rewrite (detail_route_accepts seg Hne Hc).
Qed.

Lemma resolve_raises_404 (p : str) (e : exn) :
  resolve p = Raise e -> e = Resolver404.
Proof.
  unfold resolve. destruct (strip_prefix root_prefix p) as [rest|];
    [|congruence].
  unfold urlpatterns. cbn [resolve_in route callback].
  destruct (match_route detail_route rest); [discriminate|].
  destruct (match_route about_route rest); congruence.
Qed.

(** The response to a path of the shape the detail route accepts. *)
Lemma get_response_slug_path (meth seg : str) (db : Table) :
  seg <> [] -> forallb (converter_class SlugConverter) seg = true ->
  get_response (mkRequest meth (SLASH :: seg ++ [SLASH])) db
  = convert_exception_to_response
      (snippet_detail (mkRequest meth (SLASH :: seg ++ [SLASH])) seg db).
Proof.
  intros Hne Hc. unfold get_response. cbn [path_info].
  rewrite (proj2 (resolve_Ok_iff (SLASH :: seg ++ [SLASH])
                    {| func := view_snippet_detail;
                       kwargs := [(lit "slug", seg)] |}));
    [reflexivity|].
  exists seg. repeat split; assumption.
Qed.

(** The response to any other path. *)
Lemma get_response_unresolved (request : HttpRequest) (db : Table) :
  (forall m, resolve (path_info request) <> Ok m) ->
  get_response request db = {| status_code := 404; content := lit "Not Found" |}.
Proof.
  intros H. unfold get_response.
  destruct (resolve (path_info request)) as [m|e] eqn:E.
  - now destruct (H m).
  - apply resolve_raises_404 in E. subst e. reflexivity.
Qed.

(* ================================================================== *)
(** ** Lemmas on what a call of [save] does to the table               *)
(* ================================================================== *)

(** The default call on a record with no key inserts a row under the
    next key. *)
Lemma save_new (nfkd : str -> str) (o : Snippet) (db : Table) (s : str) :
  pk o = None -> slugify nfkd (title o) = Ok s ->
  save nfkd no_kwargs o db
  = Ok (mkSnippet (Some (next_pk db)) (title o) (Some s) (body o),
        db ++ [mkRow (next_pk db) (title o) (Some s) (body o)]).
Proof.
  intros Hk Hs. unfold save. rewrite Hs. simpl.
  unfold Model_save, save_table. simpl. now rewrite Hk.
Qed.

(** The three things [Model.save] can do to the table when it returns:
    nothing, an insert under a key not in use, an update of the rows of
    the record's key. *)
Lemma Model_save_cases kw self db o' db' :
  Model_save kw self db = Ok (o', db') ->
  db' = db
  \/ (exists k, pk o' = Some k /\ has_pk k db = false
                /\ db' = db ++ [row_of k self])
  \/ (exists k, pk o' = Some k /\ has_pk k db = true
                /\ db' = map (update_row (update_fields kw) k self) db).
Proof.
  unfold Model_save, save_table.
  destruct (force_insert kw), (force_update kw),
    (update_fields kw) as [[|f fs]|], (pk self) as [k|] eqn:Hk; simpl;
    try discriminate;
    try (destruct (has_pk k db) eqn:Hp); try discriminate;
    intros H; injection H as <- <-; auto;
    try (right; left; exists k; now repeat split);
    try (right; right; exists k; now repeat split);
    right; left; exists (next_pk db); repeat split; apply next_pk_fresh.
Qed.

Lemma has_pk_false_notin (k : N) (db : Table) :
  has_pk k db = false -> ~ In k (map row_pk db).
Proof.
  unfold has_pk. intros H Hin. apply in_map_iff in Hin as [r [Hr Hin]].
  assert (E : existsb (fun r => row_pk r =? k) db = true).
  { apply existsb_exists. exists r. split; [assumption|]. now apply N.eqb_eq. }
  congruence.
Qed.

Lemma update_rows_pks (fs : option (list field)) (k : N) (o : Snippet) (db : Table) :
  map row_pk (map (update_row fs k o) db) = map row_pk db.
Proof.
  induction db as [|r db IH]; simpl; [reflexivity|].
  now rewrite update_row_pk, IH.
Qed.

Lemma update_row_other (fs : option (list field)) (k : N) (o : Snippet) (r : Row) :
  row_pk r <> k -> update_row fs k o r = r.
Proof.
  intros H. unfold update_row. apply N.eqb_neq in H. now rewrite H.
Qed.

Lemma lookup_app (s : str) (a b : Table) :
  filter (slug_is s) (objects_all (a ++ b))
  = filter (slug_is s) (objects_all a) ++ filter (slug_is s) (objects_all b).
Proof. unfold objects_all. now rewrite map_app, filter_app. Qed.

Lemma lookup_absent (s : str) (db : Table) :
  (forall r, In r db -> row_slug r <> Some s) ->
  filter (slug_is s) (objects_all db) = [].
Proof.
  intros H. apply lookup_empty_iff. intros [r [Hr Hs]]. exact (H r Hr Hs).
Qed.

Lemma lookup_row (s : str) (k : N) (t b : str) :
  filter (slug_is s) (objects_all [mkRow k t (Some s) b])
  = [mkSnippet (Some k) t (Some s) b].
Proof.
  unfold objects_all. simpl. unfold slug_is. simpl.
  now rewrite (proj2 (str_eqb_eq s s) eq_refl).
Qed.

Lemma slugify_routable (nfkd : str -> str) (t s : str) :
  slugify nfkd t = Ok s ->
  forallb slug_char s = true
  /\ forallb (converter_class SlugConverter) s = true.
Proof.
  rewrite slugify_eq. intros H. injection H as <-.
  pose proof (slug_of_ascii_alphabet (filter is_ascii (nfkd t))) as Ha.
  split; [assumption|].
  apply (forallb_impl slug_char); [apply slug_char_converter|exact Ha].
Qed.

(* ================================================================== *)
(** ** From a saved Snippet to its page                                *)
(* ================================================================== *)

(** X1.  When the default [save] of a new Snippet returns, the title
    deriving a slug that is not empty and that no row stored before had,
    a request for the path made of a slash, that slug and a slash is
    answered 200 with the detail text for that slug. *)
Theorem saved_snippet_is_served (nfkd : str -> str) (meth : str)
        (o : Snippet) (db : Table) (s : str) (o' : Snippet) (db' : Table) :
  pk o = None ->
  slugify nfkd (title o) = Ok s ->
  s <> [] ->
  (forall r, In r db -> row_slug r <> Some s) ->
  save nfkd no_kwargs o db = Ok (o', db') ->
  get_response (mkRequest meth (SLASH :: s ++ [SLASH])) db'
  = {| status_code := 200;
       content := lit "the detailview for slug of " ++ s |}.
Proof.
  intros Hk Hs Hne Hdb Hsave.
  rewrite (save_new nfkd o db s Hk Hs) in Hsave. injection Hsave as _ <-.
  destruct (slugify_routable nfkd (title o) s Hs) as [_ Hc].
  rewrite (get_response_slug_path meth s _ Hne Hc).
  rewrite snippet_detail_cases, lookup_app, (lookup_absent s db Hdb), lookup_row.
  reflexivity.
Qed.

Lemma saved_snippet_is_served_witness :
  get_response (mkRequest (lit "GET") (SLASH :: lit "test" ++ [SLASH]))
               [mkRow 1 (lit "Test") (Some (lit "test")) (lit "X")]
  = {| status_code := 200;
       content := lit "the detailview for slug of " ++ lit "test" |}.
Proof.
  apply (saved_snippet_is_served nfkd_ascii (lit "GET")
           (mkSnippet None (lit "Test") None (lit "X")) [] (lit "test")
           (mkSnippet (Some 1) (lit "Test") (Some (lit "test")) (lit "X"))).
  - reflexivity.
  - reflexivity.
  - discriminate.
  - intros r [].
  - reflexivity.
Defined.

(** X2.  After a call of [save] that writes the whole row and returns,
    the lookup of the slug of the record's title is never answered
    not-found: the view does not raise [Http404] and the handler does not
    answer 404. *)
Theorem saved_slug_is_found (nfkd : str -> str) (request : HttpRequest)
        kw o db o' db' (s : str) :
  update_fields kw = None ->
  save nfkd kw o db = Ok (o', db') ->
  slugify nfkd (title o) = Ok s ->
  snippet_detail request s db' <> Raise Http404
  /\ status_code (convert_exception_to_response (snippet_detail request s db'))
     <> 404.
Proof.
  intros Hf Hsave Hs.
  destruct (save_full_stored nfkd kw o db o' db' Hf Hsave)
    as [k [s' [Hs' [_ Hst]]]].
  assert (s' = s) by congruence. subst s'.
  unfold stored in Hst. apply find_some in Hst as [Hin _].
  assert (Hne : filter (slug_is s) (objects_all db') <> []).
  { intros E. apply (proj1 (lookup_empty_iff s db') E).
    eexists. split; [exact Hin|reflexivity]. }
  rewrite snippet_detail_cases.
  destruct (filter (slug_is s) (objects_all db')) as [|a [|b rest]];
    [contradiction| |]; simpl; split; discriminate.
Qed.

Lemma saved_slug_is_found_witness :
  snippet_detail (mkRequest (lit "GET") (lit "/test/")) (lit "test")
                 [mkRow 1 (lit "Test") (Some (lit "test")) (lit "X")]
  <> Raise Http404.
Proof.
  apply (saved_slug_is_found nfkd_ascii (mkRequest (lit "GET") (lit "/test/"))
           no_kwargs (mkSnippet None (lit "Test") None (lit "X")) []
           (mkSnippet (Some 1) (lit "Test") (Some (lit "test")) (lit "X"))
           [mkRow 1 (lit "Test") (Some (lit "test")) (lit "X")] (lit "test"));
    reflexivity.
Defined.



(* ================================================================== *)
(** ** Slugs as titles, slugs as paths                                 *)
(* ================================================================== *)

(** X4.  [slugify] is idempotent: the slug of a title is its own slug, so
    a Snippet retitled to its slug keeps that slug when saved. *)
Theorem slugify_idempotent (nfkd : str -> str) (H : ascii_fixed nfkd) (t : str) :
  exists s, slugify nfkd t = Ok s /\ slugify nfkd s = Ok s.
Proof.
  exists (slug_of_ascii (filter is_ascii (nfkd t))).
  split; [apply slugify_eq | now apply slugify_of_slug].
Qed.

Lemma slugify_idempotent_witness :
  exists s, slugify nfkd_ascii (lit "  Multiple   Spaces!! ") = Ok s
            /\ slugify nfkd_ascii s = Ok s.
Proof.
  apply (slugify_idempotent nfkd_ascii). intros s _. reflexivity.
Defined.

(** X5.  The route table decides every path one of two ways.  A path made
    of a slash, a segment of letters, digits, hyphens and underscores that
    is not empty, and a slash resolves to the detail view with the segment
    as [slug]; every other path, the root path and a path with no final
    slash among them, raises [Resolver404]. *)
Theorem route_table_paths (p : str) :
  (exists seg,
      seg <> [] /\ forallb (converter_class SlugConverter) seg = true
      /\ p = SLASH :: seg ++ [SLASH]
      /\ resolve p = Ok {| func := view_snippet_detail;
                           kwargs := [(lit "slug", seg)] |})
  \/ ((forall seg, forallb (converter_class SlugConverter) seg = true ->
                   p = SLASH :: seg ++ [SLASH] -> seg = [])
      /\ resolve p = Raise Resolver404).
Proof.
  destruct (resolve p) as [m|e] eqn:E.
  - left. apply resolve_Ok_iff in E as [seg [Hne [Hc [Hp ->]]]].
    exists seg. now repeat split.
  - right. rewrite (resolve_raises_404 p e E) in *. split; [|reflexivity].
    intros seg Hc Hp. destruct seg as [|c seg]; [reflexivity|].
    assert (Hok : resolve p = Ok {| func := view_snippet_detail;
                                    kwargs := [(lit "slug", c :: seg)] |}).
    { apply resolve_Ok_iff. exists (c :: seg). now repeat split. }
    congruence.
Qed.

(** X6.  Every slug [slugify] derives fits the detail route: when it is
    not empty, the path made of a slash, the slug and a slash resolves to
    the detail view with that slug; the empty slug of a blank title gives
    the path of two slashes, which no route matches. *)
Theorem derived_slug_is_routable (nfkd : str -> str) (t : str) :
  exists s,
    slugify nfkd t = Ok s
    /\ resolve (SLASH :: s ++ [SLASH])
       = match s with
         | [] => Raise Resolver404
         | _ :: _ => Ok {| func := view_snippet_detail;
                           kwargs := [(lit "slug", s)] |}
         end.
Proof.
  exists (slug_of_ascii (filter is_ascii (nfkd t))).
  pose proof (slugify_eq nfkd t) as Hs.
  set (s := slug_of_ascii (filter is_ascii (nfkd t))) in *.
  split; [assumption|].
  destruct s as [|c s]; [reflexivity|].
  destruct (slugify_routable nfkd t (c :: s) Hs) as [_ Hc].
  apply resolve_Ok_iff. exists (c :: s). now repeat split.
Qed.

(* ================================================================== *)
(** ** What [save] keeps of the table                                  *)
(* ================================================================== *)

(** X8.  Keys stay unique in every table built by calls of [save]; a call
    that returns removes no row, leaves every row of another key than the
    record's as it was, and adds at most one row. *)
Theorem save_keeps_keys_unique (nfkd : str -> str) :
  (forall db, any_saves nfkd db -> NoDup (map row_pk db))
  /\ (forall kw o db o' db' r,
        save nfkd kw o db = Ok (o', db') ->
        In r db -> pk o' <> Some (row_pk r) -> In r db')
  /\ (forall kw o db o' db',
        save nfkd kw o db = Ok (o', db') ->
        (List.length db <= List.length db' <= S (List.length db))%nat).
Proof.
  split; [|split].
  - intros db H. induction H as [|kw o db o' db' _ IH Hs]; [constructor|].
    revert Hs. unfold save. rewrite slugify_eq. simpl. intros Hs.
    apply Model_save_cases in Hs as [->|[[k [_ [Hp ->]]]|[k [_ [_ ->]]]]].
    + assumption.
    + rewrite map_app. simpl. apply NoDup_app; [exact IH | |].
      * constructor; [intros []|constructor].
      * intros x Hx [<-|[]]. exact (has_pk_false_notin k db Hp Hx).
    + now rewrite update_rows_pks.
  - intros kw o db o' db' r. unfold save. rewrite slugify_eq. simpl.
    intros Hs Hin Hk.
    apply Model_save_cases in Hs as [->|[[k [_ [_ ->]]]|[k [Ho [_ ->]]]]].
    + assumption.
    + apply in_or_app. now left.
    + apply in_map_iff. exists r. split; [|assumption].
      apply update_row_other. intros E. apply Hk. now rewrite Ho, E.
  - intros kw o db o' db'. unfold save. rewrite slugify_eq. simpl. intros Hs.
    apply Model_save_cases in Hs as [->|[[k [_ [_ ->]]]|[k [_ [_ ->]]]]].
    + lia.
    + rewrite length_app. simpl. lia.
    + rewrite length_map. lia.
Qed.

Lemma save_keeps_keys_unique_witness :
  NoDup (map row_pk [mkRow 1 (lit "B") (Some (lit "b")) (lit "x");
                     mkRow 2 (lit "C") (Some (lit "c")) (lit "y")])
  /\ In (mkRow 2 (lit "C") (Some (lit "c")) (lit "y"))
        [mkRow 1 (lit "B") (Some (lit "b")) (lit "x");
         mkRow 2 (lit "C") (Some (lit "c")) (lit "y")]
  /\ (List.length [mkRow 1 (lit "A") (Some (lit "a")) (lit "x")]
      <= List.length [mkRow 1 (lit "A") (Some (lit "a")) (lit "x");
                      mkRow 2 (lit "C") (Some (lit "c")) (lit "y")]
      <= S (List.length [mkRow 1 (lit "A") (Some (lit "a")) (lit "x")]))%nat.
Proof.
  pose proof (save_keeps_keys_unique nfkd_ascii) as [Hu [Hf Hl]].
  split; [|split].
  - apply Hu.
    apply (any_saves_step nfkd_ascii no_kwargs
             (mkSnippet (Some 1) (lit "B") (Some (lit "a")) (lit "x"))
             [mkRow 1 (lit "A") (Some (lit "a")) (lit "x");
              mkRow 2 (lit "C") (Some (lit "c")) (lit "y")]
             (mkSnippet (Some 1) (lit "B") (Some (lit "b")) (lit "x")));
      [|reflexivity].
    apply (any_saves_step nfkd_ascii no_kwargs
             (mkSnippet None (lit "C") None (lit "y"))
             [mkRow 1 (lit "A") (Some (lit "a")) (lit "x")]
             (mkSnippet (Some 2) (lit "C") (Some (lit "c")) (lit "y")));
      [|reflexivity].
    apply (any_saves_step nfkd_ascii no_kwargs
             (mkSnippet None (lit "A") None (lit "x")) []
             (mkSnippet (Some 1) (lit "A") (Some (lit "a")) (lit "x")));
      [apply any_saves_nil|reflexivity].
  - apply (Hf no_kwargs
             (mkSnippet (Some 1) (lit "B") (Some (lit "a")) (lit "x"))
             [mkRow 1 (lit "A") (Some (lit "a")) (lit "x");
              mkRow 2 (lit "C") (Some (lit "c")) (lit "y")]
             (mkSnippet (Some 1) (lit "B") (Some (lit "b")) (lit "x"))).
    + reflexivity.
    + right. now left.
    + discriminate.
  - apply (Hl no_kwargs (mkSnippet None (lit "C") None (lit "y"))
             [mkRow 1 (lit "A") (Some (lit "a")) (lit "x")]
             (mkSnippet (Some 2) (lit "C") (Some (lit "c")) (lit "y"))).
    reflexivity.
Defined.

(** X9.  A call of [save] restricted by [update_fields] keeps every row's
    slug in sync with its title when the restriction names both [title]
    and [slug] or neither of them. *)
Theorem save_with_title_and_slug_fields_keeps_sync
        (nfkd : str -> str) kw o db o' db' :
  writes (update_fields kw) f_title = writes (update_fields kw) f_slug ->
  save nfkd kw o db = Ok (o', db') ->
  Forall (row_synced nfkd) db -> Forall (row_synced nfkd) db'.
Proof.
  intros Hw. unfold save. rewrite slugify_eq. simpl. intros Hs Hdb.
  set (s := slug_of_ascii (filter is_ascii (nfkd (title o)))) in *.
  apply Model_save_cases in Hs as [->|[[k [_ [_ ->]]]|[k [_ [_ ->]]]]].
  - assumption.
  - apply Forall_app. split; [assumption|]. constructor; [|constructor].
    exists s. split; [apply slugify_eq|reflexivity].
  - apply Forall_map. eapply Forall_impl; [|exact Hdb].
    intros r Hr. unfold update_row. destruct (row_pk r =? k); [|assumption].
    rewrite Hw. destruct (writes (update_fields kw) f_slug).
    + exists s. split; [apply slugify_eq|reflexivity].
    + exact Hr.
Qed.

Lemma save_with_title_and_slug_fields_keeps_sync_witness :
  Forall (row_synced nfkd_ascii) [mkRow 1 (lit "B") (Some (lit "b")) (lit "x")].
Proof.
  apply (save_with_title_and_slug_fields_keeps_sync nfkd_ascii
           (mkKwargs false false (Some [f_title; f_slug]))
           (mkSnippet (Some 1) (lit "B") (Some (lit "a")) (lit "y"))
           [mkRow 1 (lit "A") (Some (lit "a")) (lit "x")]
           (mkSnippet (Some 1) (lit "B") (Some (lit "b")) (lit "y"))).
  - reflexivity.
  - reflexivity.
  - constructor; [|constructor]. exists (lit "a"). split; reflexivity.
Defined.

(* ================================================================== *)
(** ** The responses of the site                                       *)
(* ================================================================== *)

Lemma derived_rows_slug_chars (nfkd : str -> str) (db : Table) (r : Row) (s : str) :
  Forall (row_derived nfkd) db -> In r db -> row_slug r = Some s ->
  forallb slug_char s = true.
Proof.
  intros H Hin Hs. rewrite Forall_forall in H.
  destruct (H r Hin) as [t [s' [Ht Hr]]].
  assert (s' = s) by congruence. subst s'.
  exact (proj1 (slugify_routable nfkd t s Ht)).
Qed.

(** X10.  In a table built by calls of [save], a path whose segment holds
    a character that is no lowercase letter, digit, hyphen or underscore
    (an uppercase letter, say) is answered 404: stored slugs are lowercase
    and the lookup compares exactly. *)
Theorem non_slug_segment_is_404 (nfkd : str -> str) (db : Table)
        (meth seg : str) :
  any_saves nfkd db ->
  forallb slug_char seg = false ->
  status_code (get_response (mkRequest meth (SLASH :: seg ++ [SLASH])) db) = 404.
Proof.
  intros Hdb Hseg. apply any_saves_derived in Hdb.
  destruct (forallb (converter_class SlugConverter) seg) eqn:Hc.
  - assert (Hne : seg <> []) by (intros ->; discriminate Hseg).
    rewrite (get_response_slug_path meth seg db Hne Hc).
    rewrite snippet_detail_cases, lookup_absent; [reflexivity|].
    intros r Hr Hs.
    rewrite (derived_rows_slug_chars nfkd db r seg Hdb Hr Hs) in Hseg.
    discriminate Hseg.
  - rewrite get_response_unresolved; [reflexivity|].
    cbn [path_info]. intros m Hm.
    apply resolve_Ok_iff in Hm as [seg' [_ [Hc' [Hp _]]]].
    injection Hp as Hp. apply app_inv_tail in Hp. subst seg'. congruence.
Qed.

Lemma non_slug_segment_is_404_witness :
  status_code
    (get_response (mkRequest (lit "GET") (SLASH :: lit "Hello-World" ++ [SLASH]))
                  [mkRow 1 (lit "Hello World") (Some (lit "hello-world")) (lit "X")])
  = 404.
Proof.
  apply (non_slug_segment_is_404 nfkd_ascii).
  - apply (any_saves_step nfkd_ascii no_kwargs
             (mkSnippet None (lit "Hello World") None (lit "X")) []
             (mkSnippet (Some 1) (lit "Hello World") (Some (lit "hello-world")) (lit "X"))).
    + apply any_saves_nil.
    + reflexivity.
  - reflexivity.
Defined.

(** The filter of the lookup holds one record: one row, and no other,
    has the slug. *)
Lemma lookup_singleton (s : str) (db : Table) (o : Snippet) :
  filter (slug_is s) (objects_all db) = [o] ->
  exists i r,
    nth_error db i = Some r /\ row_slug r = Some s
    /\ forall j r', nth_error db j = Some r' -> row_slug r' = Some s -> j = i.
Proof.
  induction db as [|x db IH]; [discriminate|].
  unfold objects_all. simpl. destruct (slug_is s (instance_of x)) eqn:E.
  - intros H. injection H as _ H. exists O, x.
    split; [reflexivity|]. split; [now apply slug_is_row|].
    intros [|j] r' Hj Hs; [reflexivity|]. exfalso. simpl in Hj.
    apply (proj1 (lookup_empty_iff s db) H). exists r'.
    split; [now apply nth_error_In with j|assumption].
  - intros H. destruct (IH H) as [i [r [Hi [Hs Hu]]]]. exists (S i), r.
    split; [exact Hi|]. split; [exact Hs|].
    intros [|j] r' Hj Hs'.
    + simpl in Hj. injection Hj as <-. apply slug_is_row in Hs'. congruence.
    + f_equal. now apply (Hu j r').
Qed.

(** X11.  A request is answered 200 with the detail text of a slug exactly
    when its path is a slash, that slug and a slash, the slug is a segment
    of letters, digits, hyphens and underscores that is not empty, and one
    stored row and no other has it. *)
Theorem ok_response_iff_unique_match (request : HttpRequest) (db : Table)
        (seg : str) :
  get_response request db
  = {| status_code := 200;
       content := lit "the detailview for slug of " ++ seg |}
  <-> (path_info request = SLASH :: seg ++ [SLASH]
       /\ seg <> []
       /\ forallb (converter_class SlugConverter) seg = true
       /\ exists i r,
            nth_error db i = Some r /\ row_slug r = Some seg
            /\ forall j r',
                 nth_error db j = Some r' -> row_slug r' = Some seg -> j = i).
Proof.
  destruct request as [meth p]. cbn [path_info]. split.
  - intros H. destruct (resolve p) as [m|e] eqn:E.
    + apply resolve_Ok_iff in E as [seg0 [Hne [Hc [-> _]]]].
      rewrite (get_response_slug_path meth seg0 db Hne Hc),
        snippet_detail_cases in H.
      destruct (filter (slug_is seg0) (objects_all db)) as [|a [|b rest]] eqn:F;
        simpl in H; try discriminate H.
      injection H as H. subst seg.
      repeat split; try assumption. exact (lookup_singleton seg0 db a F).
    + rewrite get_response_unresolved in H; [discriminate H|].
      cbn [path_info]. congruence.
  - intros [-> [Hne [Hc [i [r [Hi [Hs Hu]]]]]]].
    rewrite (get_response_slug_path meth seg db Hne Hc), snippet_detail_cases.
    now rewrite (lookup_unique seg db i r Hi Hs Hu).
Qed.

(* ================================================================== *)
(** ** Letter case in titles                                           *)
(* ================================================================== *)

Lemma lower_char_ascii (c : N) : is_ascii c = true -> is_ascii (lower_char c) = true.
Proof.
  unfold lower_char. destruct (is_upper c) eqn:E; [|trivial]. intros _.
  unfold is_upper, in_range in E. apply andb_true_iff in E as [_ E].
  apply N.leb_le in E. unfold is_ascii. apply N.ltb_lt. lia.
Qed.

Lemma lower_lower (s : str) : lower (lower s) = lower s.
Proof.
  unfold lower. rewrite map_map. apply map_ext. intros c.
  unfold lower_char at 1. now rewrite lower_char_not_upper.
Qed.

Lemma lower_ascii (s : str) :
  forallb is_ascii s = true -> forallb is_ascii (lower s) = true.
Proof.
  unfold lower. induction s as [|c s IH]; simpl; [reflexivity|].
  intros H. apply andb_true_iff in H as [Hc Hs].
  now rewrite (lower_char_ascii c Hc), IH.
Qed.

(** X12.  The slug does not depend on the letter case of an ASCII title:
    the title and its lowercase form derive the same slug, so two titles
    that differ in case only collide on one slug. *)
Theorem slugify_ignores_case (nfkd : str -> str) (t : str) :
  ascii_fixed nfkd -> forallb is_ascii t = true ->
  slugify nfkd (lower t) = slugify nfkd t.
Proof.
  intros H Ht. pose proof (lower_ascii t Ht) as Hl.
  rewrite !slugify_eq, (H t Ht), (H (lower t) Hl).
  rewrite (filter_all is_ascii t Ht), (filter_all is_ascii (lower t) Hl).
  unfold slug_of_ascii. now rewrite lower_lower.
Qed.

Lemma slugify_ignores_case_witness :
  slugify nfkd_ascii (lower (lit "Hello World")) = slugify nfkd_ascii (lit "Hello World").
Proof.
  apply (slugify_ignores_case nfkd_ascii (lit "Hello World")).
  - intros s _. reflexivity.
  - reflexivity.
Defined.
